(** * OpenPecha toolkit: layer serialization and base-layer update

    A shallow embedding of

    - [openpecha/serializers/serialize.py], class [Serialize]: annotation
      layers are turned into insertion instructions ([chars_toapply]) and
      [get_result] splices them into the base text;
    - [openpoti/blupdate.py], class [Blupdate]: character coordinates of an
      old base layer are translated into a new one.

    Python values are modelled as follows.  A [str] is the list of its code
    points ([list N]); an [int] is a [Z]; a [dict] that is only looked up is
    a [gmap], a [dict] that is iterated ([base_layers]) is an association
    list in insertion order; a raised exception is the [Raise] outcome of
    the [result] monad; Python's [None] as a return value is [None]. *)

From Stdlib Require Import QArith Qround.
From stdpp Require Import base option list gmap strings.

Local Open Scope Z_scope.

(** ** Python strings *)

Abbreviation pystr := (list N).

(** A literal of ASCII characters as a Python string. *)
Definition py (s : string) : pystr :=
  (λ a, Ascii.N_of_ascii a) <$> String.list_ascii_of_string s.

(** The character U+FEFF, the byte-order mark. *)
Definition BOM : N := 65279%N.

(** ** Outcomes of a call: a value, or a raised exception *)

Inductive exn : Type :=
  | TypeError
  | AttributeError (name : string)
  | NotImplementedError
  | FileNotFoundError (path : pystr).

Inductive result (A : Type) : Type :=
  | Return (a : A)
  | Raise (e : exn).
Arguments Return {A} a.
Arguments Raise {A} e.

Definition result_bind {A B} (f : A → result B) (r : result A) : result B :=
  match r with
  | Return a => f a
  | Raise e => Raise e
  end.

#[global] Instance result_ret : MRet result := λ A a, Return a.
#[global] Instance result_mbind : MBind result := λ A B f r, result_bind f r.

(** A [for] loop whose body may raise: the state is threaded through the
    iterations and the first exception ends the loop. *)
Fixpoint for_each {A S} (body : A → S → result S) (xs : list A) (s : S)
  : result S :=
  match xs with
  | [] => Return s
  | x :: xs' => s' ← body x s; for_each body xs' s'
  end.

(** ** Python list and dict primitives used by the code *)

(** [s.split(sep)] for a one-character separator. *)
Fixpoint split (sep : N) (s : pystr) : list pystr :=
  match s with
  | [] => [[]]
  | c :: s' =>
      if (c =? sep)%N then [] :: split sep s'
      else match split sep s' with
           | [] => [[c]]
           | w :: ws => (c :: w) :: ws
           end
  end.

(** [l[-1]] on a non-empty list. *)
Definition last_item (l : list pystr) : pystr := default [] (last l).

(** The index normalisation of [s[start:end]]. *)
Definition slice_index (n i : Z) : Z :=
  if i <? 0 then Z.max (i + n) 0 else Z.min i n.

(** [s[start:end]]. *)
Definition slice (s : pystr) (start end_ : Z) : pystr :=
  let n := Z.of_nat (length s) in
  let lo := slice_index n start in
  let hi := slice_index n end_ in
  take (Z.to_nat (hi - lo)) (drop (Z.to_nat lo) s).

(** [d[k] = v] on a dict kept in insertion order: an existing key keeps its
    place, a new key goes last. *)
Fixpoint dict_set {V} (k : pystr) (v : V) (d : list (pystr * V))
  : list (pystr * V) :=
  match d with
  | [] => [(k, v)]
  | (k', v') :: d' =>
      if decide (k = k') then (k, v) :: d' else (k', v') :: dict_set k v d'
  end.

Module Serialize.

(** ** Data *)

(** An entry of the index: [{'vol': ..., 'span': {'start': ..., 'end': ...}}]. *)
Record Span : Type := mkSpan {
  vol : pystr;
  span_start : Z;
  span_end : Z
}.

(** An annotation of a layer file, with the [type] that [apply_layer] sets. *)
Record Annotation : Type := mkAnnotation {
  ann_type : option pystr;
  ann_start : Z;
  ann_end : Z;
  ann_payload : pystr
}.

(** [chars_toapply]: [defaultdict(dict)], volume id to
    [{charcoord: ([before ...], [after ...])}]. *)
Abbreviation insertions := (gmap Z (list pystr * list pystr)).
Abbreviation chars := (gmap pystr (gmap Z (list pystr * list pystr))).

(** [self.chars_toapply[vol_id]] read on a [defaultdict(dict)]. *)
Definition vol_chars (chars_toapply : chars) (vol_id : pystr) : insertions :=
  default ∅ (chars_toapply !! vol_id).

(** The files below [opfpath]: volume texts and layer files, and the
    listing of the [layers] directory as [pathlib] reports it ([None] when
    there is no such directory). *)
Record DirEntry : Type := mkDirEntry {
  stem : pystr;
  suffix : pystr
}.

Record Opf : Type := mkOpf {
  read_text : pystr → option pystr;
  layer_file : pystr → pystr → option (list Annotation);
  layers_iterdir : option (list DirEntry)
}.

(** The rendering capability that a concrete serializer supplies
    ([apply_annotation]); all it may do is record insertions. *)
Class Serializer : Type := {
  apply_annotation : pystr → Annotation → chars → result chars
}.

(** [Serialize.apply_annotation] itself provides no serialization. *)
Definition abstract_serializer : Serializer :=
  {| apply_annotation := λ _ _ _, Raise NotImplementedError |}.

(** ** [get_base_layer], [get_text_base_layer] *)

Definition get_base_layer (opf : Opf) (span : Span) : result pystr :=
  match read_text opf (vol span ++ py ".txt") with
  | None => Raise (FileNotFoundError (vol span ++ py ".txt"))
  | Some vol_base => Return (slice vol_base (span_start span) (span_end span))
  end.

Definition get_text_base_layer (opf : Opf) (text_spans : list Span)
  : result (list (pystr * pystr)) :=
  for_each
    (λ span base_layers,
       text ← get_base_layer opf span;
       Return (dict_set (last_item (split 47%N (vol span))) text base_layers))
    text_spans [].

(** ** [add_chars] *)

Definition add_chars (chars_toapply : chars) (vol_id : pystr) (cc : Z)
    (frombefore : bool) (charstoadd : pystr) : chars :=
  let d := vol_chars chars_toapply vol_id in
  let d1 :=
    match d !! cc with
    | None => <[cc := ([], [])]> d
    | Some _ => d
    end in
  let d2 :=
    if frombefore
    then alter (λ e, (charstoadd :: e.1, e.2)) cc d1
    else alter (λ e, (e.1, e.2 ++ [charstoadd])) cc d1 in
  <[vol_id := d2]> chars_toapply.

(** ** [apply_layer], [get_all_layer], [apply_layers] *)

Definition layer_path (vol_id layer_id : pystr) : pystr :=
  py "layers/" ++ vol_id ++ py "/" ++ layer_id ++ py ".yml".

Definition apply_layer `{Serializer} (opf : Opf) (vol_id layer_id : pystr)
    (chars_toapply : chars) : result chars :=
  match layer_file opf vol_id layer_id with
  | None => Raise (FileNotFoundError (layer_path vol_id layer_id))
  | Some annotations =>
      for_each
        (λ a s,
           apply_annotation vol_id
             {| ann_type := Some layer_id; ann_start := ann_start a;
                ann_end := ann_end a; ann_payload := ann_payload a |} s)
        annotations chars_toapply
  end.

(** A call [self.apply_layer(...)] with the positional arguments [args]:
    the method takes exactly [vol_id] and [layer_id]; any other number of
    arguments is a [TypeError] raised before the body runs. *)
Definition call_apply_layer `{Serializer} (opf : Opf) (args : list pystr)
    (chars_toapply : chars) : result chars :=
  match args with
  | [vol_id; layer_id] => apply_layer opf vol_id layer_id chars_toapply
  | _ => Raise TypeError
  end.

(** [iterdir()] raises [FileNotFoundError] when the directory is missing. *)
Definition get_all_layer (opf : Opf) : result (list pystr) :=
  match layers_iterdir opf with
  | None => Raise (FileNotFoundError (py "layers"))
  | Some entries =>
      Return (stem <$> filter (λ layer, suffix layer = py ".yml") entries)
  end.

(** [if self.layers:] holds for a non-empty list only. *)
Definition truthy (layers : option (list pystr)) : bool :=
  match layers with
  | Some (_ :: _) => true
  | _ => false
  end.

Definition apply_layers `{Serializer} (opf : Opf)
    (base_layers : list (pystr * pystr)) (layers : option (list pystr))
    (chars_toapply : chars) : result chars :=
  if truthy layers then
    for_each
      (λ item s,
         for_each (λ layer_id s', call_apply_layer opf [item.1; layer_id] s')
           (default [] layers) s)
      base_layers chars_toapply
  else
    for_each
      (λ item s,
         all_layer ← get_all_layer opf;
         for_each (λ layer_id s', call_apply_layer opf [layer_id] s')
           all_layer s)
      base_layers chars_toapply.

(** ** [get_result] *)

(** What one iteration of the inner loop appends to [res] for the character
    [c] at coordinate [i]. *)
Definition emit (d : insertions) (i : Z) (c : N) : pystr :=
  match d !! i with
  | Some apply => concat apply.1 ++ [c] ++ concat apply.2
  | None => [c]
  end.

(** The inner loop [for c in base_layer], with its counter [i] and the
    accumulated [res]. *)
Fixpoint scan (d : insertions) (i : Z) (res : pystr) (base_layer : pystr)
  : pystr :=
  match base_layer with
  | [] => res
  | c :: rest =>
      if (c =? BOM)%N then scan d i res rest
      else scan d (i + 1) (res ++ emit d i c) rest
  end.

(** The outer loop.  [return res] is part of the loop body, so the function
    returns at the end of the first iteration; with no volume at all the
    loop body never runs and the function returns Python's [None]. *)
Definition get_result (base_layers : list (pystr * pystr))
    (chars_toapply : chars) : option pystr :=
  match base_layers with
  | [] => None
  | (vol_id, base_layer) :: _ =>
      Some (scan (vol_chars chars_toapply vol_id) 0 [] base_layer)
  end.

(** The rendering of one volume on its own. *)
Definition render_volume (chars_toapply : chars) (item : pystr * pystr)
  : pystr :=
  scan (vol_chars chars_toapply item.1) 0 [] item.2.

(** The number of coordinates of a raw text: its characters other than
    U+FEFF. *)
Definition coords (l : pystr) : nat := length (filter (λ c, c ≠ BOM) l).

(** A sequence of [add_chars] calls on a fresh [Serialize] object. *)
Record Call : Type := mkCall {
  call_vol : pystr;
  call_cc : Z;
  call_frombefore : bool;
  call_chars : pystr
}.

Definition run_calls (calls : list Call) : chars :=
  foldl (λ s k, add_chars s (call_vol k) (call_cc k) (call_frombefore k)
                  (call_chars k)) ∅ calls.

(** ** Auxiliary definitions for the statements *)

(** The entry of [chars_toapply] for a volume and coordinate, empty when
    there is none. *)
Definition entry (s : chars) (vol_id : pystr) (cc : Z)
  : list pystr * list pystr :=
  default ([], []) (vol_chars s vol_id !! cc).

Definition push (frombefore : bool) (charstoadd : pystr)
    (e : list pystr * list pystr) : list pystr * list pystr :=
  if frombefore then (charstoadd :: e.1, e.2) else (e.1, e.2 ++ [charstoadd]).

(** The number of U+FEFF in a text. *)
Definition count_bom (l : pystr) : nat := length (filter (λ c, c = BOM) l).

(** The insertions recorded at one coordinate by a sequence of calls. *)
Definition calls_at (calls : list Call) (vol_id : pystr) (cc : Z)
  : list Call :=
  filter (λ k, (call_vol k, call_cc k) = (vol_id, cc)) calls.

Definition replay (ks : list Call) : list pystr * list pystr :=
  foldl (λ e k, push (call_frombefore k) (call_chars k) e) ([], []) ks.

Definition recorded (ks : list Call) : option (list pystr * list pystr) :=
  match ks with
  | [] => None
  | _ => Some (replay ks)
  end.

(** ** Example data *)

(** A pecha with two volumes of two characters each and two layer files
    per volume; the [layers] directory lists [title.yml] before
    [author.yml]. *)
Definition ex_annotations (layer_id : pystr) : option (list Annotation) :=
  if decide (layer_id = py "title") then Some [mkAnnotation None 0 1 []]
  else if decide (layer_id = py "author") then Some [mkAnnotation None 1 1 []]
  else None.

Definition ex_opf : Opf :=
  {| read_text := λ path,
       if decide (path = py "base/v001.txt") then Some (py "ab")
       else if decide (path = py "base/v002.txt") then Some (py "cd")
       else None;
     layer_file := λ vol_id layer_id,
       if decide (vol_id = py "v001") then ex_annotations layer_id
       else if decide (vol_id = py "v002") then ex_annotations layer_id
       else None;
     layers_iterdir :=
       Some [mkDirEntry (py "title") (py ".yml");
             mkDirEntry (py "author") (py ".yml");
             mkDirEntry (py "README") (py ".md")] |}.

(** A pecha whose layer files are all there and hold no annotation. *)
Definition ex_opf_empty_layers : Opf :=
  {| read_text := read_text ex_opf;
     layer_file := λ _ _, Some [];
     layers_iterdir := layers_iterdir ex_opf |}.

Definition ex_spans : list Span :=
  [mkSpan (py "base/v001") 0 2; mkSpan (py "base/v002") 0 2].

Definition ex_base_layers : list (pystr * pystr) :=
  [(py "v001", py "ab"); (py "v002", py "cd")].

(** A serializer that brackets every annotation. *)
Definition bracket_serializer : Serializer :=
  {| apply_annotation := λ vol_id a s,
       Return (add_chars (add_chars s vol_id (ann_start a) true (py "["))
                 vol_id (ann_end a) false (py "]")) |}.

(** The leading byte-order mark of a raw text, removed (the spec's
    "strips a single leading byte-order marker if present"). *)
Definition strip_leading_bom (T : pystr) : pystr :=
  match T with
  | c :: T' => if decide (c = BOM) then T' else T
  | [] => []
  end.

(** ** [get_text_spans], [__init__] *)

(** An annotation of [index.yml]: [{'work': ..., 'span': [...]}]. *)
Record IndexAnnotation : Type := mkIndexAnnotation {
  idx_work : pystr;
  idx_span : list Span
}.

(** The loop returns at the first annotation of the work; when it finds
    none the function ends without [return] and yields Python's [None]. *)
Fixpoint get_text_spans (annotations : list IndexAnnotation)
    (text_id : pystr) : option (list Span) :=
  match annotations with
  | [] => None
  | anno :: annotations' =>
      if decide (idx_work anno = text_id) then Some (idx_span anno)
      else get_text_spans annotations' text_id
  end.

(** The attributes of a [Serialize] object. *)
Record Object : Type := mkObject {
  text_spans : list Span;
  base_layers : list (pystr * pystr);
  chars_toapply : chars;
  layers : option (list pystr)
}.

(** [Serialize(opfpath, text_id, layers)].  [index_yml] is the content of
    [index.yml], if the file is there.  With [text_spans] being [None],
    [for span in self.text_spans] raises [TypeError]. *)
Definition init (opf : Opf) (index_yml : option (list IndexAnnotation))
    (text_id : pystr) (layers : option (list pystr)) : result Object :=
  match index_yml with
  | None => Raise (FileNotFoundError (py "index.yml"))
  | Some annotations =>
      match get_text_spans annotations text_id with
      | None => Raise TypeError
      | Some text_spans =>
          base_layers ← get_text_base_layer opf text_spans;
          Return {| text_spans := text_spans; base_layers := base_layers;
                    chars_toapply := ∅; layers := layers |}
      end
  end.

(** ** Further notions for the statements *)

(** The key of a span's volume in [base_layers]. *)
Definition vol_key (span : Span) : pystr := last_item (split 47%N (vol span)).

(** The texts inserted before, and after, one coordinate by a sequence of
    calls, in the order of the calls. *)
Definition befores (calls : list Call) (vol_id : pystr) (cc : Z)
  : list pystr :=
  call_chars <$> filter (λ k, call_frombefore k = true) (calls_at calls vol_id cc).

Definition afters (calls : list Call) (vol_id : pystr) (cc : Z)
  : list pystr :=
  call_chars <$> filter (λ k, call_frombefore k = false) (calls_at calls vol_id cc).

(** [annotation] with the [type] that [apply_layer] gives it. *)
Definition typed (layer_id : pystr) (a : Annotation) : Annotation :=
  {| ann_type := Some layer_id; ann_start := ann_start a;
     ann_end := ann_end a; ann_payload := ann_payload a |}.

End Serialize.

(** * Base-layer update *)

Module Blupdate.

(** ** The methods of [Blupdate] that the source leaves unimplemented

    [get_cctv_for_coord], [get_context] and [dmp_find] have a docstring and
    the body [pass]; [get_updated_with_dmp] and [get_updated_coord] call
    them through [self]. *)
Class Methods : Type := {
  get_cctv_for_coord : Z → Z * bool;
  get_context : Z → pystr * pystr;
  dmp_find : pystr * pystr → Z → Z
}.

Definition get_updated_with_dmp `{Methods} (srcblcoord cct : Z) : Z :=
  let context := get_context srcblcoord in
  let dstcoordestimate := srcblcoord + cct in
  dmp_find context dstcoordestimate.

(** The uncertain branch calls [self.getupdatedwithdmp], an attribute that
    the class does not have. *)
Definition get_updated_coord `{Methods} (srcblcoord : Z) : result Z :=
  let cctvforcoord := get_cctv_for_coord srcblcoord in
  if cctvforcoord.2 then Return (srcblcoord + cctvforcoord.1)
  else Raise (AttributeError "getupdatedwithdmp").

End Blupdate.

Module BlupdateSpec.

(** ** The translation vector, from the specification *)

(** An operation of the diff primitive. *)
Inductive DiffOp : Type :=
  | Equal (text : pystr)
  | Insertion (text : pystr)
  | Deletion (text : pystr).

(** A triple [(srcStart, srcEnd, offset)]. *)
Abbreviation triple := (Z * Z * Z)%type.

Definition src_start (t : triple) : Z := t.1.1.
Definition src_end (t : triple) : Z := t.1.2.
Definition offset (t : triple) : Z := t.2.

(** Modelled from the spec: the body of [Blupdate.compute_cctv] is missing
    ([pass]); this is the loop of [buildTranslationVector] over the diff
    operations, with its running [srcCursor] and [offset]. *)
Fixpoint build_vector (ops : list DiffOp) (srcCursor offset : Z)
  : list triple :=
  match ops with
  | [] => []
  | Equal text :: ops' =>
      let L := Z.of_nat (length text) in
      (srcCursor, srcCursor + L, offset)
        :: build_vector ops' (srcCursor + L) offset
  | Insertion text :: ops' =>
      let L := Z.of_nat (length text) in
      build_vector ops' srcCursor (offset + L)
  | Deletion text :: ops' =>
      let L := Z.of_nat (length text) in
      build_vector ops' (srcCursor + L) (offset - L)
  end.

(** Modelled from the spec: [buildTranslationVector], the missing body of
    [Blupdate.compute_cctv], over a diff primitive [diff]. *)
Definition compute_cctv (diff : pystr → pystr → list DiffOp)
    (srcbl dstbl : pystr) : list triple :=
  build_vector (diff srcbl dstbl) 0 0.

(** The invariant of a translation vector: sorted, not overlapping. *)
Fixpoint well_formed (lo : Z) (cctv : list triple) : Prop :=
  match cctv with
  | [] => True
  | t :: cctv' =>
      lo ≤ src_start t ∧ src_start t ≤ src_end t ∧ well_formed (src_end t) cctv'
  end.

(** ** A diff primitive

    A diff by longest common subsequence, as one that the diff primitive's
    contract admits: character edits first, then runs of equal edits. *)
Inductive Edit : Type :=
  | Keep (c : N)
  | Ins (c : N)
  | Del (c : N).

Definition is_keep (e : Edit) : bool :=
  match e with
  | Keep _ => true
  | _ => false
  end.

Definition kept (es : list Edit) : nat :=
  length (filter (λ e, is_keep e = true) es).

Fixpoint lcs_edits (a : pystr) : pystr → list Edit :=
  fix inner (b : pystr) : list Edit :=
    match a, b with
    | [], _ => Ins <$> b
    | _, [] => Del <$> a
    | x :: a', y :: b' =>
        if decide (x = y) then Keep x :: lcs_edits a' b'
        else
          let del := Del x :: lcs_edits a' b in
          let ins := Ins y :: inner b' in
          if decide (kept ins ≤ kept del)%nat then del else ins
    end.

Fixpoint runs (es : list Edit) : list DiffOp :=
  match es with
  | [] => []
  | e :: es' =>
      match e, runs es' with
      | Keep c, Equal text :: ops => Equal (c :: text) :: ops
      | Ins c, Insertion text :: ops => Insertion (c :: text) :: ops
      | Del c, Deletion text :: ops => Deletion (c :: text) :: ops
      | Keep c, ops => Equal [c] :: ops
      | Ins c, ops => Insertion [c] :: ops
      | Del c, ops => Deletion [c] :: ops
      end
  end.

Definition lcs_diff (srcbl dstbl : pystr) : list DiffOp :=
  runs (lcs_edits srcbl dstbl).

(** ** Lookup in the translation vector, from the specification *)

Definition inside (c : Z) (t : triple) : bool :=
  (src_start t <=? c) && (c <? src_end t).

(** Round to the nearest integer, a tie going up. *)
Definition round_half_up (q : Q) : Z := Qfloor (q + (1 # 2))%Q.

Definition average (a b : Z) : Q := ((inject_Z a + inject_Z b) / 2)%Q.

(** Modelled from the spec: the body of [Blupdate.get_cctv_for_coord] is
    missing ([pass]); this is [lookup].  A coordinate inside a triple has
    that triple's offset, for certain.  Otherwise the offsets of the
    nearest triple before and the nearest after are averaged and rounded,
    the one neighbour standing alone when the other is absent; the spec
    gives no value for a vector without triples. *)
Definition get_cctv_for_coord (cctv : list triple) (srcblcoord : Z)
  : option (Z * bool) :=
  match find (inside srcblcoord) cctv with
  | Some t => Some (offset t, true)
  | None =>
      let before := last (filter (λ t, src_end t ≤ srcblcoord) cctv) in
      let after := head (filter (λ t, srcblcoord < src_start t) cctv) in
      match before, after with
      | Some b, Some a =>
          Some (round_half_up (average (offset b) (offset a)), false)
      | Some b, None => Some (offset b, false)
      | None, Some a => Some (offset a, false)
      | None, None => None
      end
  end.

(** Modelled from the spec: the body of [Blupdate.get_context] is missing
    ([pass]); this is [context]: the up to [contextlen] characters before
    and after the coordinate. *)
Definition get_context (srcbl : pystr) (contextlen : nat) (srcblcoord : Z)
  : pystr * pystr :=
  let left := take (Z.to_nat srcblcoord) srcbl in
  (drop (length left - contextlen) left,
   take contextlen (drop (Z.to_nat srcblcoord) srcbl)).

(** ** The worked example *)

Definition ex_srcbl : pystr := py "abefghijkl".
Definition ex_dstbl : pystr := py "abcdefgkl".

Definition ex_ops : list DiffOp :=
  [Equal (py "ab"); Insertion (py "cd"); Equal (py "efg");
   Deletion (py "hij"); Equal (py "kl")].

Definition ex_cctv : list triple := [(0, 2, 0); (2, 5, 2); (8, 10, -1)].

(** A [Blupdate] object for the worked example: [contextlen] is 16, the
    approximate search is left open. *)
Definition ex_methods (dmp_find : pystr * pystr → Z → Z) : Blupdate.Methods :=
  {| Blupdate.get_cctv_for_coord := λ c,
       default (0, false) (get_cctv_for_coord ex_cctv c);
     Blupdate.get_context := get_context ex_srcbl 16;
     Blupdate.dmp_find := dmp_find |}.

(** The source and the destination side of a sequence of diff operations. *)
Fixpoint src_of (ops : list DiffOp) : pystr :=
  match ops with
  | [] => []
  | Equal text :: ops' => text ++ src_of ops'
  | Insertion _ :: ops' => src_of ops'
  | Deletion text :: ops' => text ++ src_of ops'
  end.

Fixpoint dst_of (ops : list DiffOp) : pystr :=
  match ops with
  | [] => []
  | Equal text :: ops' => text ++ dst_of ops'
  | Insertion text :: ops' => text ++ dst_of ops'
  | Deletion _ :: ops' => dst_of ops'
  end.

End BlupdateSpec.

Module SerializeProofs.
Import Serialize.

(** ** The inner loop of [get_result] *)

Lemma scan_acc d i res l : scan d i res l = res ++ scan d i [] l.
Proof.
  revert i res. induction l as [|c l IH]; intros i res; simpl.
  - by rewrite app_nil_r.
  - destruct (c =? BOM)%N; [apply IH|].
    rewrite (IH (i + 1) (res ++ _)), (IH (i + 1) (emit d i c)).
    by rewrite app_assoc.
Qed.

Lemma coords_cons_bom l : coords (BOM :: l) = coords l.
Proof. unfold coords. by rewrite filter_cons_False by (intros H; by apply H). Qed.

Lemma coords_cons c l : c ≠ BOM → coords (c :: l) = S (coords l).
Proof. intros Hc. unfold coords. by rewrite filter_cons_True. Qed.

Lemma coords_le_length l : (coords l ≤ length l)%nat.
Proof. apply length_filter. Qed.

Lemma scan_cons_bom d i l : scan d i [] (BOM :: l) = scan d i [] l.
Proof. reflexivity. Qed.

Lemma scan_cons d i c l :
  c ≠ BOM → scan d i [] (c :: l) = emit d i c ++ scan d (i + 1) [] l.
Proof.
  intros Hc. simpl. destruct (N.eqb_spec c BOM) as [->|_]; [done|].
  by rewrite scan_acc.
Qed.

Lemma scan_app d i l1 l2 :
  scan d i [] (l1 ++ l2)
  = scan d i [] l1 ++ scan d (i + Z.of_nat (coords l1)) [] l2.
Proof.
  revert i. induction l1 as [|c l1 IH]; intros i.
  - simpl. unfold coords. simpl. by rewrite Z.add_0_r.
  - destruct (decide (c = BOM)) as [->|Hc].
    + rewrite <- app_comm_cons, !scan_cons_bom, coords_cons_bom. apply IH.
    + rewrite <- app_comm_cons, !scan_cons, coords_cons, IH by done.
      rewrite <- app_assoc. do 3 f_equal. lia.
Qed.

Lemma scan_imap d i l :
  scan d i [] l
  = concat (imap (λ k c, emit d (i + Z.of_nat k) c) (filter (λ c, c ≠ BOM) l)).
Proof.
  revert i. induction l as [|c l IH]; intros i; [done|].
  destruct (decide (c = BOM)) as [->|Hc].
  - rewrite scan_cons_bom, filter_cons_False by (intros H; by apply H).
    apply IH.
  - rewrite scan_cons, filter_cons_True, IH by done. simpl.
    rewrite Z.add_0_r. do 2 f_equal. apply imap_ext. intros k x _. simpl.
    f_equal. lia.
Qed.

(** The loop only reads the coordinates [i .. i + coords l - 1]. *)
Lemma scan_ext (d d' : insertions) i l :
  (∀ k, i ≤ k < i + Z.of_nat (coords l) → d !! k = d' !! k) →
  scan d i [] l = scan d' i [] l.
Proof.
  revert i. induction l as [|c l IH]; intros i Hk; [done|].
  destruct (decide (c = BOM)) as [->|Hc].
  - rewrite !scan_cons_bom. apply IH. intros k ?. apply Hk.
    by rewrite coords_cons_bom.
  - rewrite coords_cons in Hk by done. rewrite !scan_cons by done.
    f_equal.
    + unfold emit. rewrite (Hk i) by lia. done.
    + apply IH. intros k ?. apply Hk. lia.
Qed.

Lemma scan_empty i l : scan (∅ : insertions) i [] l = filter (λ c, c ≠ BOM) l.
Proof.
  revert i. induction l as [|c l IH]; intros i; [done|].
  destruct (decide (c = BOM)) as [->|Hc].
  - rewrite scan_cons_bom, filter_cons_False by (intros H; by apply H).
    apply IH.
  - rewrite scan_cons, filter_cons_True, IH by done.
    unfold emit. by rewrite lookup_empty.
Qed.

Lemma get_result_cons item rest s :
  get_result (item :: rest) s = Some (render_volume s item).
Proof. by destruct item. Qed.

(** ** What [add_chars] does to the insertion map *)

Lemma add_chars_lookup_eq s vol_id cc fb x :
  vol_chars (add_chars s vol_id cc fb x) vol_id !! cc
  = Some (push fb x (entry s vol_id cc)).
Proof.
  unfold add_chars, entry, push, vol_chars at 1.
  rewrite lookup_insert_eq. simpl.
  destruct (vol_chars s vol_id !! cc) as [e|] eqn:He; destruct fb;
    rewrite lookup_alter_eq; rewrite ?lookup_insert_eq, ?He; done.
Qed.

Lemma add_chars_lookup_ne s vol_id cc fb x vol_id' cc' :
  (vol_id, cc) ≠ (vol_id', cc') →
  vol_chars (add_chars s vol_id cc fb x) vol_id' !! cc'
  = vol_chars s vol_id' !! cc'.
Proof.
  intros Hne. unfold add_chars, vol_chars at 1.
  destruct (decide (vol_id = vol_id')) as [<-|Hv].
  - assert (cc ≠ cc') by congruence.
    rewrite lookup_insert_eq. simpl.
    destruct (vol_chars s vol_id !! cc) as [e|] eqn:He; destruct fb;
      rewrite lookup_alter_ne by done; rewrite ?lookup_insert_ne by done;
      done.
  - by rewrite lookup_insert_ne.
Qed.

Lemma emit_entry s vol_id cc c :
  emit (vol_chars s vol_id) cc c
  = concat (entry s vol_id cc).1 ++ [c] ++ concat (entry s vol_id cc).2.
Proof. unfold emit, entry. by destruct (vol_chars s vol_id !! cc). Qed.

Lemma emit_add_chars s vol_id cc fb x c :
  emit (vol_chars (add_chars s vol_id cc fb x) vol_id) cc c
  = if fb then x ++ emit (vol_chars s vol_id) cc c
    else emit (vol_chars s vol_id) cc c ++ x.
Proof.
  unfold emit at 1. rewrite add_chars_lookup_eq, emit_entry.
  destruct fb; simpl.
  - by rewrite <- app_assoc.
  - rewrite concat_app. simpl. by rewrite app_nil_r, <- !app_assoc.
Qed.

(** An insertion leaves the scan of a stretch of text alone unless it is
    for this volume and one of the coordinates the stretch covers. *)
Lemma scan_add_chars_other s vol_id cc fb x vol_id' i l :
  vol_id ≠ vol_id' ∨ cc < i ∨ i + Z.of_nat (coords l) ≤ cc →
  scan (vol_chars (add_chars s vol_id cc fb x) vol_id') i [] l
  = scan (vol_chars s vol_id') i [] l.
Proof.
  intros Hout. apply scan_ext. intros k Hk. apply add_chars_lookup_ne.
  intros [= -> ->]. destruct Hout as [?|?]; [done|lia].
Qed.

Lemma scan_split_at d pre c post :
  c ≠ BOM →
  scan d 0 [] (pre ++ c :: post)
  = scan d 0 [] pre ++ emit d (Z.of_nat (coords pre)) c
    ++ scan d (Z.of_nat (coords pre) + 1) [] post.
Proof. intros Hc. by rewrite scan_app, scan_cons. Qed.

(** Every coordinate below [coords T] is the coordinate of one character
    of [T] other than U+FEFF. *)
Lemma coords_split T cc :
  0 ≤ cc < Z.of_nat (coords T) →
  ∃ pre c post, T = pre ++ c :: post ∧ c ≠ BOM ∧ Z.of_nat (coords pre) = cc.
Proof.
  revert cc. induction T as [|c T IH]; intros cc Hcc.
  - unfold coords in Hcc. simpl in Hcc. lia.
  - destruct (decide (c = BOM)) as [->|Hc].
    + rewrite coords_cons_bom in Hcc.
      destruct (IH cc Hcc) as (pre & c & post & -> & Hc & Hpre).
      exists (BOM :: pre), c, post. by rewrite coords_cons_bom.
    + rewrite coords_cons in Hcc by done.
      destruct (decide (cc = 0)) as [->|Hnz].
      * by exists [], c, T.
      * destruct (IH (cc - 1)) as (pre & c' & post & -> & Hc' & Hpre); [lia|].
        exists (c :: pre), c', post. rewrite coords_cons by done.
        repeat split; [done|lia].
Qed.

(** Two insertions at one coordinate of a volume, seen in its rendering. *)
Lemma render_two_insertions s vol_id pre c post fb A B :
  c ≠ BOM →
  let cc := Z.of_nat (coords pre) in
  let d := vol_chars s vol_id in
  render_volume (add_chars (add_chars s vol_id cc fb A) vol_id cc fb B)
    (vol_id, pre ++ c :: post)
  = scan d 0 [] pre
    ++ (if fb then B ++ A ++ emit d cc c else emit d cc c ++ A ++ B)
    ++ scan d (cc + 1) [] post.
Proof.
  intros Hc cc d. unfold render_volume. simpl.
  rewrite scan_split_at by done. fold cc.
  rewrite !(scan_add_chars_other _ _ _ _ _ _ 0 pre) by (right; right; lia).
  rewrite !(scan_add_chars_other _ _ _ _ _ _ (cc + 1) post) by (right; left; lia).
  rewrite !emit_add_chars. fold d.
  destruct fb; by rewrite <- ?app_assoc.
Qed.

Lemma replay_length ks :
  (length (replay ks).1 + length (replay ks).2 = length ks)%nat.
Proof.
  induction ks as [|k ks IH] using rev_ind; [done|].
  unfold replay in *. rewrite foldl_snoc, length_app.
  destruct (foldl _ _ ks) as [bs as_]. unfold push.
  destruct (call_frombefore k); simpl in *; rewrite ?length_app; simpl; lia.
Qed.

Lemma run_calls_snoc calls k :
  run_calls (calls ++ [k])
  = add_chars (run_calls calls) (call_vol k) (call_cc k) (call_frombefore k)
      (call_chars k).
Proof. unfold run_calls. by rewrite foldl_snoc. Qed.

Lemma recorded_snoc ks k :
  recorded (ks ++ [k])
  = Some (push (call_frombefore k) (call_chars k)
            (default ([], []) (recorded ks))).
Proof.
  destruct ks as [|k0 ks]; [done|].
  change (recorded ((k0 :: ks) ++ [k])) with (Some (replay ((k0 :: ks) ++ [k]))).
  unfold replay. by rewrite foldl_snoc.
Qed.

Lemma run_calls_lookup calls vol_id cc :
  vol_chars (run_calls calls) vol_id !! cc
  = recorded (calls_at calls vol_id cc).
Proof.
  induction calls as [|k calls IH] using rev_ind.
  - unfold run_calls, vol_chars. simpl. by rewrite lookup_empty.
  - rewrite run_calls_snoc. unfold calls_at in *. rewrite filter_app.
    destruct (decide ((call_vol k, call_cc k) = (vol_id, cc))) as [Heq|Hne].
    + rewrite (filter_cons_True _ k), filter_nil by done.
      injection Heq as -> ->.
      rewrite add_chars_lookup_eq, recorded_snoc. unfold entry.
      by rewrite IH.
    + rewrite (filter_cons_False _ k), filter_nil, app_nil_r by done.
      by rewrite add_chars_lookup_ne.
Qed.

(** ** Rendering a work *)

(** C1.  A work of two volumes: [get_text_base_layer] yields both volumes
    in span order, yet [get_result] returns the rendering of the first
    volume only, where the claim has the concatenation of both. *)
Theorem get_result_stops_after_first_volume :
  get_text_base_layer ex_opf ex_spans = Return ex_base_layers
  ∧ get_result ex_base_layers ∅ = Some (py "ab")
  ∧ concat (render_volume ∅ <$> ex_base_layers) = py "abcd".
Proof. by vm_compute. Qed.

Example render_before_before :
  get_result [(py "v001", py "abc")]
    (add_chars (add_chars ∅ (py "v001") 1 true (py "<A>")) (py "v001") 1 true
       (py "<B>"))
  = Some (py "a<B><A>bc").
Proof. by vm_compute. Qed.

Example render_after_after :
  get_result [(py "v001", py "abc")]
    (add_chars (add_chars ∅ (py "v001") 1 false (py "<A>")) (py "v001") 1 false
       (py "<B>"))
  = Some (py "ab<A><B>c").
Proof. by vm_compute. Qed.

(** C2, as stated, fails for a coordinate beyond the text: after two
    "before" insertions A then B (or two "after" insertions) at coordinate
    5 of a volume of two characters, [get_result] returns the plain text,
    in which B's text does not stand before A's (nor A's before B's):
    neither is there. *)
Lemma add_chars_order_beyond_text :
  let sb := add_chars (add_chars ∅ (py "v001") 5 true (py "<A>"))
              (py "v001") 5 true (py "<B>") in
  let sa := add_chars (add_chars ∅ (py "v001") 5 false (py "<A>"))
              (py "v001") 5 false (py "<B>") in
  get_result [(py "v001", py "ab")] sb = Some (py "ab")
  ∧ get_result [(py "v001", py "ab")] sa = Some (py "ab")
  ∧ (¬ ∃ pre mid post : pystr,
         py "ab" = pre ++ py "<B>" ++ mid ++ py "<A>" ++ post)
  ∧ (¬ ∃ pre mid post : pystr,
         py "ab" = pre ++ py "<A>" ++ mid ++ py "<B>" ++ post).
Proof.
  split; [by vm_compute|]. split; [by vm_compute|].
  split; intros (pre & mid & post & Heq);
    apply (f_equal length) in Heq; rewrite !length_app in Heq;
    change (length (py "ab")) with 2%nat in Heq;
    change (length (py "<A>")) with 3%nat in Heq;
    change (length (py "<B>")) with 3%nat in Heq; lia.
Qed.

(** C2, amended.  Two insertions A then B at one coordinate [cc] of a volume: the
    character at [cc] is rendered with B then A in front of what was
    there (both "before"), or with A then B behind it (both "after"); the
    rest of the volume's rendering is unchanged.  [get_result] returns this
    rendering for the volume it renders. *)
Theorem add_chars_order (s : chars) (vol_id T : pystr) (cc : Z) (A B : pystr) :
  0 ≤ cc < Z.of_nat (coords T) →
  ∃ pre c post,
    T = pre ++ c :: post ∧ c ≠ BOM ∧ Z.of_nat (coords pre) = cc ∧
    let d := vol_chars s vol_id in
    let sb := add_chars (add_chars s vol_id cc true A) vol_id cc true B in
    let sa := add_chars (add_chars s vol_id cc false A) vol_id cc false B in
    render_volume sb (vol_id, T)
      = scan d 0 [] pre ++ (B ++ A ++ emit d cc c) ++ scan d (cc + 1) [] post
    ∧ render_volume sa (vol_id, T)
      = scan d 0 [] pre ++ (emit d cc c ++ A ++ B) ++ scan d (cc + 1) [] post
    ∧ ∀ rest,
        get_result ((vol_id, T) :: rest) sb = Some (render_volume sb (vol_id, T))
        ∧ get_result ((vol_id, T) :: rest) sa = Some (render_volume sa (vol_id, T)).
Proof.
  intros Hcc. destruct (coords_split T cc Hcc) as (pre & c & post & -> & Hc & <-).
  exists pre, c, post. repeat split; try done.
  - apply (render_two_insertions s vol_id pre c post true A B Hc).
  - apply (render_two_insertions s vol_id pre c post false A B Hc).
Qed.

Lemma add_chars_order_witness :
  0 ≤ 1 < Z.of_nat (coords (py "abc")) ∧
  ∃ pre c post,
    py "abc" = pre ++ c :: post ∧ c ≠ BOM ∧ Z.of_nat (coords pre) = 1 ∧
    let d := vol_chars ∅ (py "v001") in
    let sb := add_chars (add_chars ∅ (py "v001") 1 true (py "<A>"))
                (py "v001") 1 true (py "<B>") in
    let sa := add_chars (add_chars ∅ (py "v001") 1 false (py "<A>"))
                (py "v001") 1 false (py "<B>") in
    render_volume sb (py "v001", py "abc")
      = scan d 0 [] pre ++ (py "<B>" ++ py "<A>" ++ emit d 1 c)
        ++ scan d (1 + 1) [] post
    ∧ render_volume sa (py "v001", py "abc")
      = scan d 0 [] pre ++ (emit d 1 c ++ py "<A>" ++ py "<B>")
        ++ scan d (1 + 1) [] post
    ∧ ∀ rest,
        get_result ((py "v001", py "abc") :: rest) sb
          = Some (render_volume sb (py "v001", py "abc"))
        ∧ get_result ((py "v001", py "abc") :: rest) sa
          = Some (render_volume sa (py "v001", py "abc")).
Proof.
  split; [by vm_compute|].
  apply (add_chars_order ∅ (py "v001") (py "abc") 1).
  by vm_compute.
Defined.

(** ** Texts with byte-order marks *)

Lemma coords_count_bom l : (coords l + count_bom l = length l)%nat.
Proof.
  induction l as [|c l IH]; [done|].
  unfold coords, count_bom in *.
  destruct (decide (c = BOM)) as [Hc|Hc].
  - rewrite filter_cons_False, filter_cons_True by tauto. simpl. lia.
  - rewrite filter_cons_True, filter_cons_False by tauto. simpl. lia.
Qed.

Lemma filter_no_bom (l : pystr) : BOM ∉ l → filter (λ c, c ≠ BOM) l = l.
Proof.
  induction l as [|c l IH]; [done|].
  intros [Hc Hl]%not_elem_of_cons.
  rewrite filter_cons_True by congruence. by rewrite IH.
Qed.

Example render_interior_bom :
  get_result [(py "v001", [BOM; 97; BOM; 98]%N)]
    (add_chars ∅ (py "v001") 1 true (py "X"))
  = Some (py "aXb").
Proof. by vm_compute. Qed.

Lemma vol_chars_empty vol_id : vol_chars ∅ vol_id = ∅.
Proof. unfold vol_chars. by rewrite lookup_empty. Qed.

(** One insertion on a fresh object, at the coordinate of the character
    that follows [pre]. *)
Lemma render_one_insertion vol_id pre c post fb x :
  c ≠ BOM →
  scan (vol_chars (add_chars ∅ vol_id (Z.of_nat (coords pre)) fb x) vol_id)
    0 [] (pre ++ c :: post)
  = filter (λ c, c ≠ BOM) pre
    ++ (if fb then x ++ [c] else [c] ++ x)
    ++ filter (λ c, c ≠ BOM) post.
Proof.
  intros Hc. rewrite scan_split_at by done.
  rewrite (scan_add_chars_other _ _ _ _ _ _ 0 pre) by (right; right; lia).
  rewrite (scan_add_chars_other _ _ _ _ _ _ (Z.of_nat (coords pre) + 1) post)
    by (right; left; lia).
  rewrite emit_add_chars, !vol_chars_empty, !scan_empty.
  unfold emit. rewrite lookup_empty. by destruct fb.
Qed.

(** C10.  [get_result] renders the characters of the volume other than
    U+FEFF, wherever they stand, and numbers them 0, 1, 2, ... for the
    lookup of insertions in [chars_toapply]: a character preceded by [pre]
    is looked up at [length pre] minus the number of U+FEFF in [pre], so
    that an insertion recorded there by [add_chars] lands at this
    character. *)
Theorem get_result_skips_every_bom (vol_id T : pystr)
    (rest : list (pystr * pystr)) (s : chars) :
  let d := vol_chars s vol_id in
  get_result ((vol_id, T) :: rest) s
  = Some (concat (imap
            (λ k c, match d !! Z.of_nat k with
                    | Some apply => concat apply.1 ++ [c] ++ concat apply.2
                    | None => [c]
                    end)
            (filter (λ c, c ≠ BOM) T)))
  ∧ ∀ pre c post,
      T = pre ++ c :: post → c ≠ BOM →
      let i := Z.of_nat (length pre) - Z.of_nat (count_bom pre) in
      get_result ((vol_id, T) :: rest) s
      = Some (scan d 0 [] pre ++ emit d i c ++ scan d (i + 1) [] post)
      ∧ ∀ x,
          get_result ((vol_id, T) :: rest) (add_chars ∅ vol_id i true x)
          = Some (filter (λ c, c ≠ BOM) pre ++ x ++ [c]
                  ++ filter (λ c, c ≠ BOM) post)
          ∧ get_result ((vol_id, T) :: rest) (add_chars ∅ vol_id i false x)
            = Some (filter (λ c, c ≠ BOM) pre ++ [c] ++ x
                    ++ filter (λ c, c ≠ BOM) post).
Proof.
  intros d. split.
  - simpl. fold d. rewrite scan_imap. by do 2 f_equal.
  - intros pre c post -> Hc i.
    assert (Z.of_nat (coords pre) = i) as Hi
      by (pose proof (coords_count_bom pre); lia).
    split.
    + simpl. fold d. rewrite scan_split_at by done. by rewrite Hi.
    + intros x. rewrite <- Hi. simpl.
      rewrite !render_one_insertion by done. simpl.
      by rewrite <- !app_assoc.
Qed.

Lemma get_result_skips_every_bom_witness :
  let T := [97; BOM; 98]%N in
  T = [97; BOM]%N ++ 98%N :: [] ∧ 98%N ≠ BOM
  ∧ get_result [(py "v001", T)] (add_chars ∅ (py "v001") 1 true (py "X"))
    = Some (py "aXb")
  ∧ get_result [(py "v001", T)] (add_chars ∅ (py "v001") 1 false (py "X"))
    = Some (py "abX").
Proof.
  intros T. split; [done|]. split; [done|].
  assert (98%N ≠ BOM) as Hc by done.
  exact (proj2 (proj2 (get_result_skips_every_bom (py "v001") T [] ∅)
                  [97; BOM]%N 98%N [] eq_refl Hc) (py "X")).
Defined.

(** ** Rendering without layers *)

(** C6, as stated, fails on a text with U+FEFF after its first character:
    the rendering drops it, the BOM-stripped text keeps it. *)
Lemma zero_layers_interior_bom :
  let T := [97; BOM; 98]%N in
  get_result [(py "v001", T)] ∅ = Some (py "ab")
  ∧ strip_leading_bom T = T
  ∧ get_result [(py "v001", T)] ∅ ≠ Some (strip_leading_bom T).
Proof. by vm_compute. Qed.

(** C6, amended.  With no insertion recorded, the rendering of a
    one-volume work is its base text without any U+FEFF; that is the base
    text without its leading byte-order mark when no U+FEFF stands after
    the first character. *)
Theorem zero_layers_identity (vol_id T : pystr) :
  get_result [(vol_id, T)] ∅ = Some (filter (λ c, c ≠ BOM) T)
  ∧ (BOM ∉ strip_leading_bom T →
     get_result [(vol_id, T)] ∅ = Some (strip_leading_bom T)).
Proof.
  assert (get_result [(vol_id, T)] ∅ = Some (filter (λ c, c ≠ BOM) T)) as Hres.
  { simpl. unfold vol_chars. rewrite lookup_empty. simpl.
    by rewrite scan_empty. }
  split; [done|]. intros Hbom. rewrite Hres. f_equal.
  destruct T as [|c T]; [done|]. simpl in *.
  destruct (decide (c = BOM)) as [->|Hc].
  - rewrite filter_cons_False by tauto. by apply filter_no_bom.
  - by apply filter_no_bom.
Qed.

Lemma zero_layers_identity_witness :
  (BOM ∉ strip_leading_bom (BOM :: py "ab"))
  ∧ get_result [(py "v001", BOM :: py "ab")] ∅
    = Some (strip_leading_bom (BOM :: py "ab")).
Proof.
  assert (BOM ∉ strip_leading_bom (BOM :: py "ab")) as Hbom.
  { vm_compute. intros H.
    repeat (apply elem_of_cons in H as [H|H]; [discriminate H|]).
    by apply elem_of_nil in H. }
  split; [done|].
  by apply (proj2 (zero_layers_identity (py "v001") (BOM :: py "ab"))).
Defined.

(** ** Insertions outside the text *)

(** C7, as stated, fails: an insertion recorded at coordinate 5 of a
    two-character volume is in [chars_toapply], and [get_result] returns
    the plain text, with no error and without the insertion. *)
Lemma insertion_beyond_text_dropped :
  let s := add_chars ∅ (py "v001") 5 true (py "X") in
  vol_chars s (py "v001") !! 5 = Some ([py "X"], [])
  ∧ get_result [(py "v001", py "ab")] s = Some (py "ab").
Proof. by vm_compute. Qed.

(** C7, amended.  An insertion recorded at a coordinate at or beyond the
    number of characters (other than U+FEFF) of its volume changes no
    volume's rendering and not the result of [get_result], which raises no
    error: the insertion is left out of the output. *)
Theorem insertion_out_of_range_ignored (base_layers : list (pystr * pystr))
    (s : chars) (vol_id : pystr) (cc : Z) (fb : bool) (x : pystr) :
  (∀ T, (vol_id, T) ∈ base_layers → Z.of_nat (coords T) ≤ cc) →
  (∀ item, item ∈ base_layers →
     render_volume (add_chars s vol_id cc fb x) item = render_volume s item)
  ∧ get_result base_layers (add_chars s vol_id cc fb x)
    = get_result base_layers s.
Proof.
  intros Hout.
  assert (∀ item, item ∈ base_layers →
     render_volume (add_chars s vol_id cc fb x) item = render_volume s item)
    as Hvol.
  { intros [v T] Hin. unfold render_volume. simpl.
    apply scan_add_chars_other.
    destruct (decide (vol_id = v)) as [<-|Hv]; [|by left].
    right; right. specialize (Hout T Hin). lia. }
  split; [done|].
  destruct base_layers as [|item rest]; [done|].
  rewrite !get_result_cons. f_equal. apply Hvol. by left.
Qed.

Lemma insertion_out_of_range_ignored_witness :
  (∀ T, (py "v001", T) ∈ ex_base_layers → Z.of_nat (coords T) ≤ 2)
  ∧ get_result ex_base_layers (add_chars ∅ (py "v001") 2 false (py "X"))
    = get_result ex_base_layers ∅.
Proof.
  assert (∀ T, (py "v001", T) ∈ ex_base_layers → Z.of_nat (coords T) ≤ 2)
    as Hout.
  { intros T Hin. unfold ex_base_layers in Hin.
    apply elem_of_cons in Hin as [Hin|Hin].
    - injection Hin as ->. by vm_compute.
    - apply elem_of_cons in Hin as [Hin|Hin]; [|by apply elem_of_nil in Hin].
      by vm_compute in Hin. }
  split; [done|].
  by apply (proj2 (insertion_out_of_range_ignored ex_base_layers ∅
                     (py "v001") 2 false (py "X") Hout)).
Defined.

(** ** The keys of [chars_toapply] *)

(** C9.  After any sequence of [add_chars] calls on a fresh object, an
    entry of [chars_toapply] holds as many strings, before and after
    together, as there were calls for its volume and coordinate, and there
    was at least one. *)
Theorem chars_toapply_keys_have_insertions (calls : list Call)
    (vol_id : pystr) (d : insertions) (cc : Z) (e : list pystr * list pystr) :
  run_calls calls !! vol_id = Some d →
  d !! cc = Some e →
  (length e.1 + length e.2 = length (calls_at calls vol_id cc))%nat
  ∧ (1 ≤ length e.1 + length e.2)%nat
  ∧ ∃ k, k ∈ calls ∧ call_vol k = vol_id ∧ call_cc k = cc.
Proof.
  intros Hd He.
  pose proof (run_calls_lookup calls vol_id cc) as Hrec.
  unfold vol_chars in Hrec. rewrite Hd in Hrec. simpl in Hrec.
  rewrite He in Hrec.
  destruct (calls_at calls vol_id cc) as [|k ks] eqn:Hat; [done|].
  injection Hrec as ->. rewrite replay_length.
  split; [done|]. split; [simpl; lia|].
  assert (k ∈ calls_at calls vol_id cc) as Hk by (rewrite Hat; by left).
  unfold calls_at in Hk. apply list_elem_of_filter in Hk as [[= <- <-] Hin].
  by exists k.
Qed.

Lemma chars_toapply_keys_have_insertions_witness :
  let calls := [mkCall (py "v001") 3 true (py "<"); mkCall (py "v001") 3 false (py ">")] in
  let d : insertions := {[ 3 := ([py "<"], [py ">"]) ]} in
  run_calls calls !! py "v001" = Some d
  ∧ d !! 3 = Some ([py "<"], [py ">"])
  ∧ (1 ≤ length [py "<"] + length [py ">"])%nat.
Proof.
  intros calls d.
  assert (run_calls calls !! py "v001" = Some d) as Hd by (by vm_compute).
  assert (d !! 3 = Some ([py "<"], [py ">"])) as He by (by vm_compute).
  split; [done|]. split; [done|].
  apply (chars_toapply_keys_have_insertions calls (py "v001") d 3
           ([py "<"], [py ">"]) Hd He).
Defined.

(** ** Applying layers *)

Lemma for_each_raise {A S} (body : A → S → result S) e x xs s :
  body x s = Raise e → for_each body (x :: xs) s = Raise e.
Proof. intros H. simpl. by rewrite H. Qed.

(** With [layers] unspecified (or empty), a volume and a [.yml] file in the
    layer directory are enough for [apply_layers] to raise. *)
Lemma default_layers_raise `{Serializer} opf item rest layers layer_id ls s :
  truthy layers = false →
  get_all_layer opf = Return (layer_id :: ls) →
  apply_layers opf (item :: rest) layers s = Raise TypeError.
Proof.
  intros Hl Hall. unfold apply_layers. rewrite Hl.
  apply for_each_raise. by rewrite Hall.
Qed.

(** C8.  With [layers] left to [None], [apply_layers] on the example pecha
    applies no layer: the call [self.apply_layer(layer_id)] lacks the
    volume and raises [TypeError].  The layer ids would come in the order
    of the directory listing ([title] before [author]).  With the layers
    given explicitly both volumes get both layers. *)
Theorem apply_layers_unspecified_raises :
  @apply_layers bracket_serializer ex_opf ex_base_layers None ∅
  = Raise TypeError
  ∧ get_all_layer ex_opf = Return [py "title"; py "author"]
  ∧ @apply_layers bracket_serializer ex_opf ex_base_layers
      (Some [py "author"; py "title"]) ∅
    = Return (run_calls
        [mkCall (py "v001") 1 true (py "["); mkCall (py "v001") 1 false (py "]");
         mkCall (py "v001") 0 true (py "["); mkCall (py "v001") 1 false (py "]");
         mkCall (py "v002") 1 true (py "["); mkCall (py "v002") 1 false (py "]");
         mkCall (py "v002") 0 true (py "["); mkCall (py "v002") 1 false (py "]")]).
Proof.
  split; [|split].
  - by eapply @default_layers_raise.
  - by vm_compute.
  - by vm_compute.
Qed.

End SerializeProofs.

Module BlupdateProofs.
Import BlupdateSpec.

Example lcs_diff_worked : lcs_diff ex_srcbl ex_dstbl = ex_ops.
Proof. by vm_compute. Qed.

Example get_context_docstring :
  get_context ex_srcbl 3 3 = (py "abe", py "fgh").
Proof. by vm_compute. Qed.

(** ** Building the translation vector *)

Example ex_ops_cover : src_of ex_ops = ex_srcbl ∧ dst_of ex_ops = ex_dstbl.
Proof. by vm_compute. Qed.

Lemma well_formed_weaken lo lo' cctv :
  lo' ≤ lo → well_formed lo cctv → well_formed lo' cctv.
Proof.
  intros Hlo. destruct cctv as [|t cctv]; [done|].
  simpl. intros (? & ? & ?). repeat split; [lia|done..].
Qed.

Lemma build_vector_well_formed ops srcCursor offset :
  well_formed srcCursor (build_vector ops srcCursor offset).
Proof.
  revert srcCursor offset.
  induction ops as [|[text|text|text] ops IH]; intros srcCursor offset;
    simpl; [done| | |].
  - unfold src_start, src_end. simpl. repeat split; [lia..|apply IH].
  - apply IH.
  - eapply well_formed_weaken; [|apply IH]. lia.
Qed.

(** The triples stay within the source side of the operations. *)
Lemma build_vector_bound ops srcCursor offset t :
  t ∈ build_vector ops srcCursor offset →
  srcCursor ≤ src_start t ∧
  src_end t ≤ srcCursor + Z.of_nat (length (src_of ops)).
Proof.
  revert srcCursor offset.
  induction ops as [|[text|text|text] ops IH]; intros srcCursor offset Hin;
    simpl in *; rewrite ?length_app.
  - by apply elem_of_nil in Hin.
  - apply elem_of_cons in Hin as [->|Hin].
    + unfold src_start, src_end. simpl. lia.
    + apply IH in Hin. lia.
  - by apply IH in Hin.
  - apply IH in Hin. lia.
Qed.

(** A coordinate inside a triple is the coordinate of the same character in
    the destination, shifted by the triple's offset. *)
Lemma build_vector_translates ops srcCursor offset pre pre' t c :
  length pre = Z.to_nat srcCursor → 0 ≤ srcCursor →
  Z.of_nat (length pre') = srcCursor + offset →
  t ∈ build_vector ops srcCursor offset →
  src_start t ≤ c < src_end t →
  (pre' ++ dst_of ops) !! Z.to_nat (c + BlupdateSpec.offset t)
  = (pre ++ src_of ops) !! Z.to_nat c.
Proof.
  revert srcCursor offset pre pre'.
  induction ops as [|[text|text|text] ops IH];
    intros srcCursor offset pre pre' Hpre Hpos Hpre' Hin Hc; simpl in *.
  - by apply elem_of_nil in Hin.
  - apply elem_of_cons in Hin as [->|Hin].
    + unfold src_start, src_end, BlupdateSpec.offset in *. simpl in *.
      rewrite !app_assoc.
      rewrite !(lookup_app_l (_ ++ text)) by (rewrite length_app; lia).
      rewrite !lookup_app_r by lia. f_equal. lia.
    + rewrite !app_assoc.
      apply (IH (srcCursor + Z.of_nat (length text)) offset); try done;
        rewrite ?length_app; lia.
  - rewrite app_assoc.
    apply (IH srcCursor (offset + Z.of_nat (length text))); try done.
    rewrite length_app. lia.
  - rewrite app_assoc.
    apply (IH (srcCursor + Z.of_nat (length text))
              (offset - Z.of_nat (length text))); try done;
      rewrite ?length_app; lia.
Qed.

(** C4.  On the worked example the diff yields equal "ab", insert "cd",
    equal "efg", delete "hij", equal "kl", and the translation vector built
    from these operations is [(0,2,0), (2,5,2), (8,10,-1)]. *)
Theorem compute_cctv_worked_example (diff : pystr → pystr → list DiffOp) :
  diff ex_srcbl ex_dstbl = ex_ops →
  compute_cctv diff (py "abefghijkl") (py "abcdefgkl")
  = [(0, 2, 0); (2, 5, 2); (8, 10, -1)].
Proof. intros Hdiff. unfold compute_cctv. fold ex_srcbl ex_dstbl. by rewrite Hdiff. Qed.

Lemma compute_cctv_worked_example_witness :
  lcs_diff ex_srcbl ex_dstbl = ex_ops
  ∧ compute_cctv lcs_diff (py "abefghijkl") (py "abcdefgkl")
    = [(0, 2, 0); (2, 5, 2); (8, 10, -1)].
Proof.
  split; [by vm_compute|].
  apply (compute_cctv_worked_example lcs_diff). by vm_compute.
Defined.

(** ** Lookup in the translation vector *)

Lemma round_half_up_average (a b : Z) :
  round_half_up (average a b) = (a + b + 1) `div` 2.
Proof.
  unfold round_half_up, average.
  assert (((inject_Z a + inject_Z b) / 2 + (1 # 2)) == ((a + b + 1) # 2))%Q
    as Heq.
  { unfold Qeq, Qdiv, Qinv, Qmult, Qplus, inject_Z. simpl. lia. }
  by rewrite Heq.
Qed.

Lemma well_formed_lower lo cctv t :
  well_formed lo cctv → t ∈ cctv → lo ≤ src_start t ∧ src_start t ≤ src_end t.
Proof.
  revert lo. induction cctv as [|u cctv IH]; intros lo Hwf Hin.
  - by apply elem_of_nil in Hin.
  - destruct Hwf as (Hlo & Hu & Hwf).
    apply elem_of_cons in Hin as [->|Hin]; [done|].
    destruct (IH _ Hwf Hin). lia.
Qed.

Lemma well_formed_app lo l1 t l2 :
  well_formed lo (l1 ++ t :: l2) →
  (∀ u, u ∈ l1 → src_start u ≤ src_end u ∧ src_end u ≤ src_start t)
  ∧ src_start t ≤ src_end t
  ∧ well_formed (src_end t) l2.
Proof.
  revert lo. induction l1 as [|v l1 IH]; intros lo Hwf.
  - destruct Hwf as (_ & Ht & Hwf). split; [|done].
    intros u Hu. by apply elem_of_nil in Hu.
  - destruct Hwf as (_ & Hv & Hwf).
    pose proof (well_formed_lower _ _ t Hwf) as Hlow.
    destruct (IH _ Hwf) as (Hl1 & Ht & Hl2).
    split; [|done]. intros u [->|Hu]%elem_of_cons; [|by apply Hl1].
    split; [done|]. apply Hlow. apply elem_of_app. right. by left.
Qed.

Lemma find_inside lo cctv t c :
  well_formed lo cctv → t ∈ cctv → src_start t ≤ c < src_end t →
  find (inside c) cctv = Some t.
Proof.
  revert lo. induction cctv as [|u cctv IH]; intros lo Hwf Hin Hc.
  - by apply elem_of_nil in Hin.
  - destruct Hwf as (_ & Hu & Hwf). simpl.
    apply elem_of_cons in Hin as [<-|Hin].
    + unfold inside. by rewrite (proj2 (Z.leb_le _ _)), (proj2 (Z.ltb_lt _ _)) by lia.
    + pose proof (well_formed_lower _ _ t Hwf Hin).
      unfold inside at 1. rewrite (proj2 (Z.ltb_ge _ _)) by lia.
      rewrite andb_false_r. by apply (IH (src_end u)).
Qed.

Lemma find_outside cctv c :
  (∀ t, t ∈ cctv → c < src_start t ∨ src_end t ≤ c) →
  find (inside c) cctv = None.
Proof.
  induction cctv as [|u cctv IH]; intros Hout; [done|]. simpl.
  unfold inside at 1.
  destruct (Hout u) as [?|?]; [by left| |].
  - rewrite (proj2 (Z.leb_gt _ _)) by lia. simpl.
    apply IH. intros t ?. apply Hout. by right.
  - rewrite (proj2 (Z.ltb_ge _ _)) by lia. rewrite andb_false_r.
    apply IH. intros t ?. apply Hout. by right.
Qed.

Lemma filter_all {A} (P : A → Prop) `{∀ x, Decision (P x)} (l : list A) :
  (∀ x, x ∈ l → P x) → filter P l = l.
Proof.
  induction l as [|x l IH]; intros Hall; [done|].
  rewrite filter_cons_True by (apply Hall; by left).
  f_equal. apply IH. intros y ?. apply Hall. by right.
Qed.

Lemma filter_none {A} (P : A → Prop) `{∀ x, Decision (P x)} (l : list A) :
  (∀ x, x ∈ l → ¬ P x) → filter P l = [].
Proof.
  induction l as [|x l IH]; intros Hall; [done|].
  rewrite filter_cons_False by (apply Hall; by left).
  apply IH. intros y ?. apply Hall. by right.
Qed.

Lemma get_cctv_for_coord_inside lo cctv t c :
  well_formed lo cctv → t ∈ cctv → src_start t ≤ c < src_end t →
  get_cctv_for_coord cctv c = Some (offset t, true).
Proof.
  intros Hwf Hin Hc. unfold get_cctv_for_coord.
  by rewrite (find_inside lo cctv t c).
Qed.

Lemma get_cctv_for_coord_gap lo l1 b a l2 c :
  well_formed lo (l1 ++ b :: a :: l2) → src_end b ≤ c < src_start a →
  get_cctv_for_coord (l1 ++ b :: a :: l2) c
  = Some (round_half_up (average (offset b) (offset a)), false).
Proof.
  intros Hwf Hc.
  destruct (well_formed_app _ _ _ _ Hwf) as (Hl1 & Hb & Hwf').
  destruct Hwf' as (Hba & Ha & Hwf'').
  assert (∀ u, u ∈ l2 → src_end a ≤ src_start u ∧ src_start u ≤ src_end u)
    as Hl2 by (intros u; by apply well_formed_lower).
  assert (∀ u, u ∈ l1 ++ [b] → src_start u ≤ src_end u ∧ src_end u ≤ c) as Hlo.
  { intros u [Hu|Hu]%elem_of_app.
    - destruct (Hl1 u Hu). lia.
    - apply list_elem_of_singleton in Hu as ->. lia. }
  assert (∀ u, u ∈ a :: l2 → c < src_start u ∧ src_start u ≤ src_end u) as Hhi.
  { intros u [->|Hu]%elem_of_cons; [lia|]. destruct (Hl2 u Hu). lia. }
  unfold get_cctv_for_coord.
  replace (l1 ++ b :: a :: l2) with ((l1 ++ [b]) ++ a :: l2)
    by (by rewrite <- app_assoc).
  rewrite find_outside.
  2:{ intros u [Hu|Hu]%elem_of_app.
      - right. by apply Hlo.
      - left. by apply Hhi. }
  rewrite !(filter_app _ (l1 ++ [b]) (a :: l2)).
  rewrite (filter_all _ (l1 ++ [b])) by (intros u Hu; by apply Hlo).
  rewrite (filter_none _ (a :: l2))
    by (intros u Hu; destruct (Hhi u Hu); lia).
  rewrite (filter_none _ (l1 ++ [b]))
    by (intros u Hu; destruct (Hlo u Hu); lia).
  rewrite (filter_all _ (a :: l2)) by (intros u Hu; by apply Hhi).
  by rewrite app_nil_r, last_snoc.
Qed.

(** C5.  In a well-formed translation vector, a coordinate inside a triple
    has that triple's offset, for certain; a coordinate in the gap between
    two neighbouring triples has the rounded average of their offsets, not
    for certain, and the rounding of a half goes up.  In the worked vector
    the lookup of 3 is (2, true) and the lookup of 7 is (1, false). *)
Theorem get_cctv_for_coord_lookup :
  (∀ (cctv : list triple) (c : Z),
     well_formed 0 cctv →
     (∀ t, t ∈ cctv → src_start t ≤ c < src_end t →
        get_cctv_for_coord cctv c = Some (offset t, true))
     ∧ (∀ l1 b a l2,
          cctv = l1 ++ b :: a :: l2 → src_end b ≤ c < src_start a →
          get_cctv_for_coord cctv c
          = Some (round_half_up (average (offset b) (offset a)), false)))
  ∧ (∀ a b, round_half_up (average a b) = (a + b + 1) `div` 2)
  ∧ (∀ n, round_half_up (inject_Z n + (1 # 2))%Q = n + 1)
  ∧ get_cctv_for_coord ex_cctv 3 = Some (2, true)
  ∧ get_cctv_for_coord ex_cctv 7 = Some (1, false).
Proof.
  split; [|split; [|split; [|split]]].
  - intros cctv c Hwf. split.
    + intros t. by apply get_cctv_for_coord_inside with (lo := 0).
    + intros l1 b a l2 -> Hc. by apply get_cctv_for_coord_gap with (lo := 0).
  - apply round_half_up_average.
  - intros n. unfold round_half_up.
    assert ((inject_Z n + (1 # 2) + (1 # 2)) == inject_Z (n + 1))%Q as Heq.
    { unfold Qeq, Qplus, inject_Z. simpl. lia. }
    by rewrite Heq, Qfloor_Z.
  - by vm_compute.
  - by vm_compute.
Qed.

Lemma get_cctv_for_coord_lookup_witness :
  well_formed 0 ex_cctv
  ∧ ((2, 5, 2) ∈ ex_cctv ∧ 2 ≤ 3 < 5
     ∧ get_cctv_for_coord ex_cctv 3 = Some (2, true))
  ∧ (ex_cctv = [(0, 2, 0)] ++ (2, 5, 2) :: (8, 10, -1) :: [] ∧ 5 ≤ 7 < 8
     ∧ get_cctv_for_coord ex_cctv 7
       = Some (round_half_up (average 2 (-1)), false)).
Proof.
  assert (well_formed 0 ex_cctv) as Hwf.
  { unfold ex_cctv, well_formed, src_start, src_end. simpl. lia. }
  assert ((2, 5, 2) ∈ ex_cctv) as Hin by (right; left).
  split; [done|]. split.
  - split; [done|]. split; [lia|].
    apply (proj1 (proj1 get_cctv_for_coord_lookup ex_cctv 3 Hwf) (2, 5, 2) Hin).
    unfold src_start, src_end. simpl. lia.
  - split; [done|]. split; [lia|].
    apply (proj2 (proj1 get_cctv_for_coord_lookup ex_cctv 7 Hwf)
             [(0, 2, 0)] (2, 5, 2) (8, 10, -1) [] eq_refl).
    unfold src_start, src_end. simpl. lia.
Defined.

(** ** Translating a coordinate *)

(** C3.  On the worked example, with any approximate search [dmp_find]:
    coordinate 3 is certain and [get_updated_coord] returns 3 + 2;
    coordinate 7 is uncertain and [get_updated_coord] raises
    [AttributeError] for [getupdatedwithdmp], where the claim has the
    result of [get_updated_with_dmp], the search for the context of 7
    around 7 + 1. *)
Theorem get_updated_coord_uncertain_raises
    (dmp_find : pystr * pystr → Z → Z) :
  let self := ex_methods dmp_find in
  @Blupdate.get_cctv_for_coord self 3 = (2, true)
  ∧ @Blupdate.get_updated_coord self 3 = Return 5
  ∧ @Blupdate.get_cctv_for_coord self 7 = (1, false)
  ∧ @Blupdate.get_updated_coord self 7
    = Raise (AttributeError "getupdatedwithdmp")
  ∧ @Blupdate.get_updated_with_dmp self 7 1
    = dmp_find (py "abefghi", py "jkl") 8.
Proof. by vm_compute. Qed.

End BlupdateProofs.

(** * Further properties of the serializer *)

Module SerializeExtras.
Import Serialize SerializeProofs.

(** ** Accumulated insertions *)

Lemma replay_split ks :
  replay ks
  = (reverse (call_chars <$> filter (λ k, call_frombefore k = true) ks),
     call_chars <$> filter (λ k, call_frombefore k = false) ks).
Proof.
  induction ks as [|k ks IH] using rev_ind; [done|].
  unfold replay in *. rewrite foldl_snoc, IH, !filter_app, !fmap_app.
  unfold push. destruct (call_frombefore k) eqn:Hk.
  - rewrite (filter_cons_True _ k), (filter_cons_False _ k), !filter_nil
      by (rewrite ?Hk; done).
    simpl. by rewrite reverse_app, app_nil_r.
  - rewrite (filter_cons_False _ k), (filter_cons_True _ k), !filter_nil
      by (rewrite ?Hk; done).
    simpl. by rewrite app_nil_r.
Qed.

(** X1.  After any sequence of [add_chars] calls, the entry of a volume and
    coordinate holds the texts of the "before" calls made for it, latest
    first, and the texts of its "after" calls, earliest first; there is
    no entry when no call was made for it. *)
Theorem add_chars_accumulates (calls : list Call) (vol_id : pystr) (cc : Z) :
  vol_chars (run_calls calls) vol_id !! cc
  = if decide (calls_at calls vol_id cc = []) then None
    else Some (reverse (befores calls vol_id cc), afters calls vol_id cc).
Proof.
  rewrite run_calls_lookup. unfold befores, afters.
  destruct (calls_at calls vol_id cc) as [|k ks] eqn:Hat; [done|].
  rewrite decide_False by done. unfold recorded. by rewrite replay_split.
Qed.

(** X2.  The whole pipeline: after any sequence of [add_chars] calls,
    [get_result] is the first volume's text without U+FEFF, each character
    at coordinate [k] preceded by the "before" texts recorded for [k],
    latest call first, and followed by its "after" texts, earliest call
    first. *)
Theorem get_result_of_calls (calls : list Call) (vol_id T : pystr)
    (rest : list (pystr * pystr)) :
  get_result ((vol_id, T) :: rest) (run_calls calls)
  = Some (concat (imap
            (λ k c, concat (reverse (befores calls vol_id (Z.of_nat k)))
                    ++ [c] ++ concat (afters calls vol_id (Z.of_nat k)))
            (filter (λ c, c ≠ BOM) T))).
Proof.
  simpl. rewrite scan_imap. do 2 f_equal. apply imap_ext. intros k c _.
  cbn beta. rewrite Z.add_0_l. unfold emit. rewrite add_chars_accumulates.
  case_decide as Hat; [|done].
  unfold befores, afters. by rewrite Hat.
Qed.

(** ** Insertions that do not interfere *)

Lemma add_chars_lookup_vol s vol_id cc fb x :
  add_chars s vol_id cc fb x !! vol_id
  = Some (vol_chars (add_chars s vol_id cc fb x) vol_id).
Proof. unfold vol_chars, add_chars. by rewrite lookup_insert_eq. Qed.

Lemma add_chars_lookup_vol_ne s vol_id cc fb x vol_id' :
  vol_id ≠ vol_id' → add_chars s vol_id cc fb x !! vol_id' = s !! vol_id'.
Proof. intros Hne. unfold add_chars. by rewrite lookup_insert_ne. Qed.

Lemma add_chars_is_Some s vol_id cc fb x vol_id' :
  is_Some (add_chars s vol_id cc fb x !! vol_id')
  ↔ vol_id = vol_id' ∨ is_Some (s !! vol_id').
Proof.
  destruct (decide (vol_id = vol_id')) as [<-|Hne].
  - rewrite add_chars_lookup_vol. split; [by left|done].
  - rewrite add_chars_lookup_vol_ne by done. tauto.
Qed.

(** Two states with the same volumes and the same entries are equal. *)
Lemma chars_ext (s1 s2 : chars) :
  (∀ v, is_Some (s1 !! v) ↔ is_Some (s2 !! v)) →
  (∀ v k, vol_chars s1 v !! k = vol_chars s2 v !! k) →
  s1 = s2.
Proof.
  intros Hdom Hentries. apply map_eq. intros v.
  specialize (Hdom v). pose proof (Hentries v) as Hv. unfold vol_chars in Hv.
  destruct (s1 !! v) as [d1|], (s2 !! v) as [d2|]; simpl in Hv.
  - f_equal. by apply map_eq.
  - destruct Hdom as [Hdom _]. by destruct Hdom.
  - destruct Hdom as [_ Hdom]. by destruct Hdom.
  - done.
Qed.

Lemma add_chars_entry s vol_id cc fb x vol_id' cc' :
  vol_chars (add_chars s vol_id cc fb x) vol_id' !! cc'
  = if decide ((vol_id, cc) = (vol_id', cc'))
    then Some (push fb x (entry s vol_id cc))
    else vol_chars s vol_id' !! cc'.
Proof.
  case_decide as Heq.
  - injection Heq as <- <-. apply add_chars_lookup_eq.
  - by apply add_chars_lookup_ne.
Qed.

(** X3.  Two insertions that differ in volume, coordinate or placement can
    be recorded in either order: [chars_toapply] ends up the same. *)
Theorem add_chars_commute (s : chars) (v1 v2 : pystr) (c1 c2 : Z)
    (fb1 fb2 : bool) (x1 x2 : pystr) :
  (v1, c1, fb1) ≠ (v2, c2, fb2) →
  add_chars (add_chars s v1 c1 fb1 x1) v2 c2 fb2 x2
  = add_chars (add_chars s v2 c2 fb2 x2) v1 c1 fb1 x1.
Proof.
  intros Hne.
  assert (∀ v k,
    vol_chars (add_chars (add_chars s v1 c1 fb1 x1) v2 c2 fb2 x2) v !! k
    = vol_chars (add_chars (add_chars s v2 c2 fb2 x2) v1 c1 fb1 x1) v !! k)
    as Hentries.
  { intros v k. rewrite !add_chars_entry. unfold entry.
    rewrite !add_chars_entry.
    repeat case_decide; simplify_eq; try done.
    unfold push. destruct fb1, fb2; try done; by destruct (default _ _). }
  apply chars_ext; [|done].
  intros v. rewrite !add_chars_is_Some. tauto.
Qed.

Lemma add_chars_commute_witness :
  (py "v001", 1, true) ≠ (py "v001", 1, false)
  ∧ add_chars (add_chars ∅ (py "v001") 1 true (py "<")) (py "v001") 1 false (py ">")
    = add_chars (add_chars ∅ (py "v001") 1 false (py ">")) (py "v001") 1 true (py "<").
Proof.
  assert ((py "v001", 1, true) ≠ (py "v001", 1, false)) as Hne by done.
  split; [done|]. by apply (add_chars_commute ∅ _ _ _ _ _ _ _ _ Hne).
Defined.

(** X4.  An insertion recorded at a negative coordinate, or for a volume
    other than the first of [base_layers], never shows in the result of
    [get_result]. *)
Theorem insertion_not_rendered (s : chars) (vol_id T : pystr)
    (rest : list (pystr * pystr)) (vol_id' : pystr) (cc : Z) (fb : bool)
    (x : pystr) :
  cc < 0 ∨ vol_id' ≠ vol_id →
  get_result ((vol_id, T) :: rest) (add_chars s vol_id' cc fb x)
  = get_result ((vol_id, T) :: rest) s.
Proof.
  intros Hout. simpl. f_equal. apply scan_add_chars_other.
  destruct Hout as [?|?]; [right; left; lia|by left].
Qed.

Lemma insertion_not_rendered_witness :
  (-1 < 0 ∨ py "v001" ≠ py "v001")
  ∧ get_result [(py "v001", py "ab")] (add_chars ∅ (py "v001") (-1) true (py "X"))
    = get_result [(py "v001", py "ab")] ∅.
Proof.
  assert (-1 < 0 ∨ py "v001" ≠ py "v001") as Hout by (left; lia).
  split; [done|].
  by apply (insertion_not_rendered ∅ (py "v001") (py "ab") [] (py "v001")
              (-1) true (py "X") Hout).
Defined.

(** ** What the rendering keeps and what it leaves out *)

Lemma emit_sublist (d : insertions) i c : [c] `sublist_of` emit d i c.
Proof.
  unfold emit. destruct (d !! i) as [e|]; [|done].
  apply sublist_inserts_l, sublist_inserts_r. done.
Qed.

Lemma scan_sublist (d : insertions) i T :
  filter (λ c, c ≠ BOM) T `sublist_of` scan d i [] T.
Proof.
  revert i. induction T as [|c T IH]; intros i; [done|].
  destruct (decide (c = BOM)) as [->|Hc].
  - rewrite scan_cons_bom, filter_cons_False by tauto. apply IH.
  - rewrite scan_cons, filter_cons_True by done.
    apply (sublist_app [c]); [apply emit_sublist|apply IH].
Qed.

(** X5.  [get_result] only adds characters: the first volume's text without
    its U+FEFF is kept, in order, within the result, whatever insertions are
    recorded; the result is at least as long. *)
Theorem get_result_keeps_text (s : chars) (vol_id T : pystr)
    (rest : list (pystr * pystr)) :
  ∃ res, get_result ((vol_id, T) :: rest) s = Some res
         ∧ filter (λ c, c ≠ BOM) T `sublist_of` res
         ∧ (coords T ≤ length res)%nat.
Proof.
  eexists. split; [done|].
  pose proof (scan_sublist (vol_chars s vol_id) 0 T) as Hsub.
  split; [done|]. by apply sublist_length in Hsub.
Qed.

Lemma not_elem_of_concat (x : N) (ls : list pystr) :
  (∀ l, l ∈ ls → x ∉ l) → x ∉ concat ls.
Proof.
  induction ls as [|l ls IH]; intros Hls; simpl.
  - apply not_elem_of_nil.
  - apply not_elem_of_app. split; [apply Hls; by left|].
    apply IH. intros l' ?. apply Hls. by right.
Qed.

Lemma scan_no_bom (d : insertions) i T :
  (∀ k e x, d !! k = Some e → x ∈ e.1 ++ e.2 → BOM ∉ x) →
  BOM ∉ scan d i [] T.
Proof.
  intros Hd. revert i. induction T as [|c T IH]; intros i.
  - simpl. apply not_elem_of_nil.
  - destruct (decide (c = BOM)) as [->|Hc]; [rewrite scan_cons_bom; apply IH|].
    rewrite scan_cons by done. apply not_elem_of_app. split; [|apply IH].
    unfold emit. destruct (d !! i) as [e|] eqn:He.
    + rewrite !not_elem_of_app. repeat split.
      * apply not_elem_of_concat. intros x Hx.
        apply (Hd i e x He). apply elem_of_app. by left.
      * apply not_elem_of_cons. split; [done|apply not_elem_of_nil].
      * apply not_elem_of_concat. intros x Hx.
        apply (Hd i e x He). apply elem_of_app. by right.
    + apply not_elem_of_cons. split; [done|apply not_elem_of_nil].
Qed.

(** X6.  When no recorded insertion text of the first volume contains
    U+FEFF, the result of [get_result] contains none: no U+FEFF of the base
    text reaches the output. *)
Theorem get_result_no_bom (s : chars) (vol_id T : pystr)
    (rest : list (pystr * pystr)) (res : pystr) :
  (∀ k e x, vol_chars s vol_id !! k = Some e → x ∈ e.1 ++ e.2 → BOM ∉ x) →
  get_result ((vol_id, T) :: rest) s = Some res →
  BOM ∉ res.
Proof.
  intros Hd [= <-]. by apply scan_no_bom.
Qed.

Lemma get_result_no_bom_witness :
  get_result [(py "v001", [BOM; 97; BOM; 98]%N)] ∅ = Some (py "ab")
  ∧ BOM ∉ py "ab".
Proof.
  assert (get_result [(py "v001", [BOM; 97; BOM; 98]%N)] ∅ = Some (py "ab"))
    as Hres by (by vm_compute).
  split; [done|].
  apply (get_result_no_bom ∅ (py "v001") [BOM; 97; BOM; 98]%N [] (py "ab"));
    [|done].
  intros k e x He. unfold vol_chars in He. rewrite lookup_empty in He.
  simpl in He. by rewrite lookup_empty in He.
Defined.

(** ** Applying layers *)

Lemma for_each_nothing {A S} (body : A → S → result S) xs s :
  (∀ x s', x ∈ xs → body x s' = Return s') → for_each body xs s = Return s.
Proof.
  induction xs as [|x xs IH]; intros Hbody; [done|].
  simpl. rewrite Hbody by (by left). simpl. apply IH.
  intros x' s' ?. apply Hbody. by right.
Qed.

Lemma for_each_total {A S} (body : A → S → result S) (g : S → A → S) xs s :
  (∀ x s', x ∈ xs → body x s' = Return (g s' x)) →
  for_each body xs s = Return (foldl g s xs).
Proof.
  revert s. induction xs as [|x xs IH]; intros s Hbody; [done|].
  simpl. rewrite Hbody by (by left). simpl. apply IH.
  intros x' s' ?. apply Hbody. by right.
Qed.

Lemma for_each_preserves {A S} (body : A → S → result S) xs s r :
  (∀ x s' r', body x s' = Return r' → r' = s') →
  for_each body xs s = Return r → r = s.
Proof.
  intros Hbody. revert s. induction xs as [|x xs IH]; intros s Hr.
  - by injection Hr.
  - simpl in Hr. destruct (body x s) as [s'|e] eqn:Hx; [|done].
    apply Hbody in Hx as ->. by apply IH.
Qed.

(** X7.  With [layers] being [None] or the empty list, [apply_layers]
    applies no layer, whatever the serializer.  Without a volume it returns
    with [chars_toapply] unchanged.  With a volume it raises
    [FileNotFoundError] when the layer directory is missing, returns with
    [chars_toapply] unchanged when the directory has no [.yml] entry, and
    raises [TypeError] otherwise. *)
Theorem apply_layers_default_branch `{Serializer} (opf : Opf)
    (base_layers : list (pystr * pystr)) (s : chars) :
  apply_layers opf base_layers None s
  = match base_layers, layers_iterdir opf with
    | [], _ => Return s
    | _ :: _, None => Raise (FileNotFoundError (py "layers"))
    | _ :: _, Some entries =>
        if decide (Forall (λ layer, suffix layer ≠ py ".yml") entries)
        then Return s else Raise TypeError
    end
  ∧ apply_layers opf base_layers (Some []) s
    = apply_layers opf base_layers None s.
Proof.
  split; [|done]. destruct base_layers as [|item rest]; [done|].
  unfold apply_layers. cbn [truthy].
  destruct (layers_iterdir opf) as [entries|] eqn:Hdir.
  - case_decide as Hyml.
    + apply for_each_nothing. intros item' s' _.
      unfold get_all_layer. rewrite Hdir.
      destruct (filter _ entries) as [|e es] eqn:Hf; [done|].
      assert (e ∈ filter (λ layer, suffix layer = py ".yml") entries) as Hin
        by (rewrite Hf; by left).
      apply list_elem_of_filter in Hin as [Hsuf Hin].
      by destruct (proj1 (Forall_forall _ _) Hyml e Hin).
    + apply for_each_raise. unfold get_all_layer. rewrite Hdir.
      destruct (filter _ entries) as [|e es] eqn:Hf; [|done].
      destruct Hyml. apply Forall_forall. intros e He Hsuf.
      assert (e ∈ filter (λ layer, suffix layer = py ".yml") entries) as Hin
        by (by apply list_elem_of_filter).
      rewrite Hf in Hin. by apply elem_of_nil in Hin.
  - apply for_each_raise. unfold get_all_layer. by rewrite Hdir.
Qed.

(** X8.  With the rendering hook of the base class, [apply_layers] never
    records an insertion: when it returns, [chars_toapply] is as it was. *)
Theorem abstract_apply_layers_records_nothing (opf : Opf)
    (base_layers : list (pystr * pystr)) (layers : option (list pystr))
    (s r : chars) :
  @apply_layers abstract_serializer opf base_layers layers s = Return r →
  r = s.
Proof.
  assert (∀ args s' r',
    @call_apply_layer abstract_serializer opf args s' = Return r' → r' = s')
    as Hcall.
  { intros args s' r' Hr. unfold call_apply_layer in Hr.
    destruct args as [|v [|l [|? ?]]]; try done.
    unfold apply_layer in Hr. destruct (layer_file opf v l) as [anns|]; [|done].
    destruct anns; simpl in Hr; [by injection Hr|done]. }
  unfold apply_layers. destruct (truthy layers); intros Hr.
  - eapply for_each_preserves; [|exact Hr]. intros item s' r' Hitem.
    eapply for_each_preserves; [|exact Hitem]. intros l. apply Hcall.
  - eapply for_each_preserves; [|exact Hr]. intros item s' r' Hitem.
    destruct (get_all_layer opf) as [all_layer|e]; [|done].
    eapply for_each_preserves; [|exact Hitem]. intros l. apply Hcall.
Qed.

Lemma abstract_apply_layers_records_nothing_witness :
  let s := add_chars ∅ (py "v001") 0 true (py "[") in
  @apply_layers abstract_serializer ex_opf_empty_layers ex_base_layers
    (Some [py "title"; py "author"]) s = Return s
  ∧ s = s.
Proof.
  intros s.
  assert (@apply_layers abstract_serializer ex_opf_empty_layers ex_base_layers
            (Some [py "title"; py "author"]) s = Return s) as Hr
    by (by vm_compute).
  split; [done|].
  apply (abstract_apply_layers_records_nothing ex_opf_empty_layers
           ex_base_layers (Some [py "title"; py "author"]) s s Hr).
Defined.

(** X9.  With the rendering hook of the base class, explicit layers, a
    volume and at least one annotation in the first layer's file for the
    first volume, [apply_layers] raises [NotImplementedError]. *)
Theorem abstract_apply_layers_raises (opf : Opf) (vol_id T : pystr)
    (rest : list (pystr * pystr)) (layer_id : pystr) (ls : list pystr)
    (a : Annotation) (anns : list Annotation) (s : chars) :
  layer_file opf vol_id layer_id = Some (a :: anns) →
  @apply_layers abstract_serializer opf ((vol_id, T) :: rest)
    (Some (layer_id :: ls)) s
  = Raise NotImplementedError.
Proof.
  intros Hfile. unfold apply_layers. simpl.
  unfold apply_layer. by rewrite Hfile.
Qed.

Lemma abstract_apply_layers_raises_witness :
  layer_file ex_opf (py "v001") (py "title") = Some [mkAnnotation None 0 1 []]
  ∧ @apply_layers abstract_serializer ex_opf ex_base_layers
      (Some [py "title"; py "author"]) ∅
    = Raise NotImplementedError.
Proof.
  assert (layer_file ex_opf (py "v001") (py "title")
          = Some [mkAnnotation None 0 1 []]) as Hfile by (by vm_compute).
  split; [done|].
  apply (abstract_apply_layers_raises ex_opf (py "v001") (py "ab")
           [(py "v002", py "cd")] (py "title") [py "author"] _ [] ∅ Hfile).
Defined.

(** X10.  With explicit layers whose files are all there and a rendering
    hook that never raises, [apply_layers] returns, having applied the hook
    once to every annotation, volume by volume, within a volume layer by
    layer in the given order, within a layer in file order, each annotation
    carrying its layer id as [type]. *)
Theorem apply_layers_applies_all (f : pystr → Annotation → chars → chars)
    (opf : Opf) (base_layers : list (pystr * pystr)) (layer_id : pystr)
    (ls : list pystr) (s : chars) :
  (∀ item l, item ∈ base_layers → l ∈ layer_id :: ls →
     is_Some (layer_file opf item.1 l)) →
  @apply_layers {| apply_annotation := λ v a s', Return (f v a s') |} opf
    base_layers (Some (layer_id :: ls)) s
  = Return
      (foldl (λ s1 item,
         foldl (λ s2 l,
           foldl (λ s3 a, f item.1 (typed l a) s3) s2
             (default [] (layer_file opf item.1 l)))
           s1 (layer_id :: ls))
         s base_layers).
Proof.
  intros Hfiles. unfold apply_layers.
  change (truthy (Some (layer_id :: ls))) with true. cbv iota.
  apply for_each_total. intros item s1 Hitem.
  change (default [] (Some (layer_id :: ls))) with (layer_id :: ls).
  apply for_each_total. intros l s2 Hl.
  unfold call_apply_layer, apply_layer.
  destruct (Hfiles item l Hitem Hl) as [anns ->]. simpl.
  by apply for_each_total.
Qed.

Lemma apply_layers_applies_all_witness :
  (∀ item l, item ∈ ex_base_layers → l ∈ [py "author"; py "title"] →
     is_Some (layer_file ex_opf item.1 l))
  ∧ @apply_layers bracket_serializer ex_opf ex_base_layers
      (Some [py "author"; py "title"]) ∅
    = Return
        (foldl (λ s1 item,
           foldl (λ s2 l,
             foldl (λ s3 a,
                 add_chars (add_chars s3 item.1 (ann_start (typed l a)) true (py "["))
                   item.1 (ann_end (typed l a)) false (py "]")) s2
               (default [] (layer_file ex_opf item.1 l)))
             s1 [py "author"; py "title"])
           ∅ ex_base_layers).
Proof.
  assert (∀ item l, item ∈ ex_base_layers → l ∈ [py "author"; py "title"] →
     is_Some (layer_file ex_opf item.1 l)) as Hfiles.
  { intros item l Hitem Hl. unfold ex_base_layers in Hitem.
    repeat (apply elem_of_cons in Hitem as [->|Hitem]);
      [| |by apply elem_of_nil in Hitem];
      repeat (apply elem_of_cons in Hl as [->|Hl]);
      try (by apply elem_of_nil in Hl); vm_compute; eauto. }
  split; [done|].
  apply (apply_layers_applies_all
           (λ v a s', add_chars (add_chars s' v (ann_start a) true (py "["))
                        v (ann_end a) false (py "]"))
           ex_opf ex_base_layers (py "author") [py "title"] ∅ Hfiles).
Defined.

(** ** Reading the base layers *)

Lemma slice_nonneg (t : pystr) (a b : Z) :
  0 ≤ a → 0 ≤ b →
  slice t a b = take (Z.to_nat b - Z.to_nat a) (drop (Z.to_nat a) t).
Proof.
  intros Ha Hb. unfold slice, slice_index.
  rewrite (proj2 (Z.ltb_ge a 0)), (proj2 (Z.ltb_ge b 0)) by lia.
  destruct (decide (Z.of_nat (length t) ≤ a)) as [Hge|Hlt].
  - rewrite !drop_ge by lia. by rewrite !take_nil.
  - rewrite (Z.min_l a) by lia.
    destruct (decide (Z.of_nat (length t) ≤ b)) as [Hgeb|Hltb].
    + rewrite Z.min_r by lia.
      rewrite !take_ge; [done|rewrite length_drop; lia..].
    + rewrite Z.min_l by lia. f_equal. lia.
Qed.

(** X11.  Spans of an existing volume file that follow one another, from
    [a] to [b] and from [b] to [c] with 0 <= a <= b <= c, yield texts whose
    concatenation is the text of the span from [a] to [c]. *)
Theorem get_base_layer_adjacent (opf : Opf) (v t : pystr) (a b c : Z) :
  read_text opf (v ++ py ".txt") = Some t →
  0 ≤ a ≤ b → b ≤ c →
  ∃ x y, get_base_layer opf (mkSpan v a b) = Return x
         ∧ get_base_layer opf (mkSpan v b c) = Return y
         ∧ get_base_layer opf (mkSpan v a c) = Return (x ++ y).
Proof.
  intros Hfile Hab Hbc. unfold get_base_layer. simpl. rewrite Hfile.
  eexists _, _. split; [done|]. split; [done|]. f_equal.
  rewrite !slice_nonneg by lia.
  replace (Z.to_nat c - Z.to_nat a)%nat
    with ((Z.to_nat b - Z.to_nat a) + (Z.to_nat c - Z.to_nat b))%nat by lia.
  rewrite <- take_take_drop, drop_drop. do 3 f_equal. lia.
Qed.

Lemma get_base_layer_adjacent_witness :
  read_text ex_opf (py "base/v001" ++ py ".txt") = Some (py "ab")
  ∧ ∃ x y, get_base_layer ex_opf (mkSpan (py "base/v001") 0 1) = Return x
           ∧ get_base_layer ex_opf (mkSpan (py "base/v001") 1 5) = Return y
           ∧ get_base_layer ex_opf (mkSpan (py "base/v001") 0 5) = Return (x ++ y).
Proof.
  assert (read_text ex_opf (py "base/v001" ++ py ".txt") = Some (py "ab"))
    as Hfile by (by vm_compute).
  split; [done|].
  apply (get_base_layer_adjacent ex_opf (py "base/v001") (py "ab") 0 1 5 Hfile);
    lia.
Defined.

(** X12.  A span that starts within an existing volume file and ends at or
    beyond its end yields the text from the start to the end of the file,
    without error; a span from 0 yields the whole file. *)
Theorem get_base_layer_beyond_end (opf : Opf) (v t : pystr) (a b : Z) :
  read_text opf (v ++ py ".txt") = Some t →
  0 ≤ a → Z.of_nat (length t) ≤ b →
  get_base_layer opf (mkSpan v a b) = Return (drop (Z.to_nat a) t)
  ∧ get_base_layer opf (mkSpan v 0 b) = Return t.
Proof.
  intros Hfile Ha Hb. unfold get_base_layer. simpl. rewrite Hfile.
  rewrite !slice_nonneg by lia. split; f_equal.
  - apply take_ge. rewrite length_drop. lia.
  - simpl. apply take_ge. lia.
Qed.

Lemma get_base_layer_beyond_end_witness :
  read_text ex_opf (py "base/v001" ++ py ".txt") = Some (py "ab")
  ∧ 0 ≤ 1 ∧ Z.of_nat (length (py "ab")) ≤ 10
  ∧ get_base_layer ex_opf (mkSpan (py "base/v001") 1 10)
    = Return (drop (Z.to_nat 1) (py "ab")).
Proof.
  assert (read_text ex_opf (py "base/v001" ++ py ".txt") = Some (py "ab"))
    as Hfile by (by vm_compute).
  assert (Z.of_nat (length (py "ab")) ≤ 10) as Hb by (by vm_compute).
  split; [done|]. split; [lia|]. split; [done|].
  apply (get_base_layer_beyond_end ex_opf (py "base/v001") (py "ab") 1 10 Hfile);
    [lia|done].
Defined.

(** ** The dict of base layers *)

Lemma dict_set_keys {V} (k k' : pystr) (v : V) d :
  k' ∈ (dict_set k v d).*1 ↔ k' = k ∨ k' ∈ d.*1.
Proof.
  induction d as [|[k0 v0] d IH]; simpl.
  - rewrite elem_of_cons, elem_of_nil. tauto.
  - case_decide as Hk; simpl; rewrite !elem_of_cons.
    + subst. tauto.
    + rewrite IH. tauto.
Qed.

Lemma dict_set_NoDup {V} (k : pystr) (v : V) d :
  NoDup d.*1 → NoDup (dict_set k v d).*1.
Proof.
  induction d as [|[k0 v0] d IH]; simpl; intros Hd.
  - apply NoDup_singleton.
  - case_decide as Hk; simpl in *; [by subst|].
    apply NoDup_cons in Hd as [Hk0 Hd]. apply NoDup_cons. split; [|by apply IH].
    rewrite dict_set_keys. intros [->|?]; done.
Qed.

Lemma dict_set_length {V} (k : pystr) (v : V) d :
  (length (dict_set k v d) ≤ S (length d))%nat.
Proof.
  induction d as [|[k0 v0] d IH]; simpl; [done|].
  case_decide; simpl; lia.
Qed.

Lemma dict_set_elem {V} (k : pystr) (v : V) d : (k, v) ∈ dict_set k v d.
Proof.
  induction d as [|[k0 v0] d IH]; simpl; [by left|].
  case_decide; [by left|by right].
Qed.

Lemma dict_set_elem_ne {V} (k k' : pystr) (v v' : V) d :
  k' ≠ k → (k', v') ∈ dict_set k v d ↔ (k', v') ∈ d.
Proof.
  intros Hne. induction d as [|[k0 v0] d IH]; simpl.
  - rewrite elem_of_cons, elem_of_nil. split; [|done]. intros [[=]|[]]. done.
  - case_decide as Hk; rewrite !elem_of_cons.
    + subst. split; (intros [[=]|?]; [done|by right]).
    + rewrite IH. tauto.
Qed.

Lemma NoDup_keys_value {V} (d : list (pystr * V)) k v1 v2 :
  NoDup d.*1 → (k, v1) ∈ d → (k, v2) ∈ d → v1 = v2.
Proof.
  induction d as [|[k0 v0] d IH]; simpl; intros Hd H1 H2.
  - by apply elem_of_nil in H1.
  - apply NoDup_cons in Hd as [Hk0 Hd].
    apply elem_of_cons in H1 as [H1|H1]; apply elem_of_cons in H2 as [H2|H2].
    + congruence.
    + injection H1 as -> ->. destruct Hk0.
      by apply (list_elem_of_fmap_2 fst) in H2.
    + injection H2 as -> ->. destruct Hk0.
      by apply (list_elem_of_fmap_2 fst) in H1.
    + by apply IH.
Qed.

Lemma for_each_app {A S} (body : A → S → result S) xs ys s :
  for_each body (xs ++ ys) s = for_each body xs s ≫= for_each body ys.
Proof.
  revert s. induction xs as [|x xs IH]; intros s; [done|].
  simpl. destruct (body x s) as [s'|e]; [apply IH|done].
Qed.

Lemma get_base_layer_read opf sp t :
  read_text opf (vol sp ++ py ".txt") = Some t →
  get_base_layer opf sp = Return (slice t (span_start sp) (span_end sp)).
Proof. intros Ht. unfold get_base_layer. by rewrite Ht. Qed.

(** The loop of [get_text_base_layer], from any dict built so far. *)
Lemma base_layers_loop opf spans acc :
  (∀ sp, sp ∈ spans → is_Some (read_text opf (vol sp ++ py ".txt"))) →
  NoDup acc.*1 →
  ∃ bl,
    for_each
      (λ span base_layers,
         text ← get_base_layer opf span;
         Return (dict_set (last_item (split 47%N (vol span))) text base_layers))
      spans acc = Return bl
    ∧ NoDup bl.*1
    ∧ (∀ k, k ∈ bl.*1 ↔ k ∈ acc.*1 ∨ ∃ sp, sp ∈ spans ∧ vol_key sp = k)
    ∧ (length bl ≤ length acc + length spans)%nat
    ∧ (∀ k T, (k, T) ∈ acc → (∀ sp, sp ∈ spans → vol_key sp ≠ k) →
         (k, T) ∈ bl).
Proof.
  revert acc. induction spans as [|sp spans IH]; intros acc Hfiles Hacc.
  - exists acc. simpl. repeat split; try done; try lia.
    + by left.
    + intros [?|(sp & Hsp & _)]; [done|by apply elem_of_nil in Hsp].
  - destruct (Hfiles sp) as [t Ht]; [by left|].
    cbn [for_each]. rewrite (get_base_layer_read opf sp t Ht).
    cbn [mbind result_mbind result_bind].
    set (acc' := dict_set _ _ acc).
    destruct (IH acc') as (bl & Hbl & Hnd & Hkeys & Hlen & Hkeep).
    { intros sp' ?. apply Hfiles. by right. }
    { by apply dict_set_NoDup. }
    exists bl. split; [done|]. split; [done|]. split; [|split].
    + intros k. rewrite Hkeys. unfold acc'. rewrite dict_set_keys.
      split.
      * intros [[->|?]|(sp' & Hsp' & Hk)].
        -- right. exists sp. split; [by left|done].
        -- by left.
        -- right. exists sp'. split; [by right|done].
      * intros [?|(sp' & Hsp' & Hk)]; [left; by right|].
        apply elem_of_cons in Hsp' as [->|Hsp'].
        -- left. left. by rewrite <- Hk.
        -- right. by exists sp'.
    + pose proof (dict_set_length (last_item (split 47%N (vol sp)))
                    (slice t (span_start sp) (span_end sp)) acc).
      fold acc' in H. simpl. lia.
    + intros k T Hin Hother. apply Hkeep.
      * unfold acc'. apply dict_set_elem_ne; [|done].
        intros ->. by apply (Hother sp); [left|].
      * intros sp' ?. apply Hother. by right.
Qed.

(** X13.  When the volume file of every span is there,
    [get_text_base_layer] returns a dict with one key per volume name (the
    part of the span's [vol] after its last slash): no key twice, every
    span's key present, and no more entries than spans. *)
Theorem get_text_base_layer_keys (opf : Opf) (spans : list Span) :
  (∀ sp, sp ∈ spans → is_Some (read_text opf (vol sp ++ py ".txt"))) →
  ∃ bl, get_text_base_layer opf spans = Return bl
        ∧ NoDup bl.*1
        ∧ (∀ k, k ∈ bl.*1 ↔ ∃ sp, sp ∈ spans ∧ vol_key sp = k)
        ∧ (length bl ≤ length spans)%nat.
Proof.
  intros Hfiles.
  destruct (base_layers_loop opf spans [] Hfiles)
    as (bl & Hbl & Hnd & Hkeys & Hlen & _); [apply NoDup_nil_2|].
  exists bl. split; [done|]. split; [done|]. split; [|done].
  intros k. rewrite Hkeys. simpl. rewrite elem_of_nil. tauto.
Qed.

Lemma get_text_base_layer_keys_witness :
  (∀ sp, sp ∈ ex_spans → is_Some (read_text ex_opf (vol sp ++ py ".txt")))
  ∧ ∃ bl, get_text_base_layer ex_opf ex_spans = Return bl
          ∧ NoDup bl.*1
          ∧ (∀ k, k ∈ bl.*1 ↔ ∃ sp, sp ∈ ex_spans ∧ vol_key sp = k)
          ∧ (length bl ≤ length ex_spans)%nat.
Proof.
  assert (∀ sp, sp ∈ ex_spans →
            is_Some (read_text ex_opf (vol sp ++ py ".txt"))) as Hfiles.
  { intros sp Hsp. unfold ex_spans in Hsp.
    repeat (apply elem_of_cons in Hsp as [->|Hsp]);
      [| |by apply elem_of_nil in Hsp]; vm_compute; eauto. }
  split; [done|]. apply (get_text_base_layer_keys ex_opf ex_spans Hfiles).
Defined.

(** X14.  When several spans of a work lie in the same volume, only the
    text of the last of them is kept in [base_layers]: the entry of a
    span's volume is that span's text when no later span has the same
    volume name. *)
Theorem get_text_base_layer_last_span_wins (opf : Opf)
    (l1 l2 : list Span) (sp : Span) (t : pystr) :
  (∀ sp', sp' ∈ l1 ++ sp :: l2 →
     is_Some (read_text opf (vol sp' ++ py ".txt"))) →
  read_text opf (vol sp ++ py ".txt") = Some t →
  (∀ sp', sp' ∈ l2 → vol_key sp' ≠ vol_key sp) →
  ∃ bl, get_text_base_layer opf (l1 ++ sp :: l2) = Return bl
        ∧ ∀ T, (vol_key sp, T) ∈ bl
               ↔ T = slice t (span_start sp) (span_end sp).
Proof.
  intros Hfiles Ht Hlater. unfold get_text_base_layer.
  rewrite for_each_app.
  destruct (base_layers_loop opf l1 []) as (acc1 & -> & Hnd1 & _);
    [intros sp' ?; apply Hfiles, elem_of_app; by left|apply NoDup_nil_2|].
  cbn [mbind result_mbind result_bind for_each].
  rewrite (get_base_layer_read opf sp t Ht).
  cbn [mbind result_mbind result_bind].
  set (acc2 := dict_set _ _ acc1).
  destruct (base_layers_loop opf l2 acc2) as (bl & -> & Hnd & _ & _ & Hkeep).
  { intros sp' ?. apply Hfiles, elem_of_app. right. by right. }
  { by apply dict_set_NoDup. }
  exists bl. split; [done|].
  assert ((vol_key sp, slice t (span_start sp) (span_end sp)) ∈ bl) as Hin.
  { apply Hkeep; [apply dict_set_elem|done]. }
  intros T. split; [|by intros ->].
  intros HT. by apply (NoDup_keys_value bl (vol_key sp)).
Qed.

Lemma get_text_base_layer_last_span_wins_witness :
  let l1 := [mkSpan (py "base/v001") 0 1] in
  let sp := mkSpan (py "base/v001") 1 2 in
  (∀ sp', sp' ∈ l1 ++ sp :: [] →
     is_Some (read_text ex_opf (vol sp' ++ py ".txt")))
  ∧ read_text ex_opf (vol sp ++ py ".txt") = Some (py "ab")
  ∧ ∃ bl, get_text_base_layer ex_opf (l1 ++ sp :: []) = Return bl
          ∧ ∀ T, (vol_key sp, T) ∈ bl ↔ T = slice (py "ab") 1 2.
Proof.
  intros l1 sp.
  assert (∀ sp', sp' ∈ l1 ++ sp :: [] →
            is_Some (read_text ex_opf (vol sp' ++ py ".txt"))) as Hfiles.
  { intros sp' Hsp. simpl in Hsp.
    repeat (apply elem_of_cons in Hsp as [->|Hsp]);
      [| |by apply elem_of_nil in Hsp]; vm_compute; eauto. }
  assert (read_text ex_opf (vol sp ++ py ".txt") = Some (py "ab")) as Ht
    by (by vm_compute).
  split; [done|]. split; [done|].
  apply (get_text_base_layer_last_span_wins ex_opf l1 [] sp (py "ab") Hfiles Ht).
  intros sp' Hsp'. by apply elem_of_nil in Hsp'.
Defined.

(** X15.  [get_text_base_layer] raises [FileNotFoundError] for the first
    span, in span order, whose volume file is missing. *)
Theorem get_text_base_layer_missing_file (opf : Opf) (l1 l2 : list Span)
    (sp : Span) :
  (∀ sp', sp' ∈ l1 → is_Some (read_text opf (vol sp' ++ py ".txt"))) →
  read_text opf (vol sp ++ py ".txt") = None →
  get_text_base_layer opf (l1 ++ sp :: l2)
  = Raise (FileNotFoundError (vol sp ++ py ".txt")).
Proof.
  intros Hfiles Hmissing. unfold get_text_base_layer. rewrite for_each_app.
  destruct (base_layers_loop opf l1 [] Hfiles) as (acc1 & -> & _);
    [apply NoDup_nil_2|].
  cbn [mbind result_mbind result_bind for_each].
  unfold get_base_layer. by rewrite Hmissing.
Qed.

Lemma get_text_base_layer_missing_file_witness :
  let l1 := [mkSpan (py "base/v001") 0 2] in
  let sp := mkSpan (py "base/v003") 0 2 in
  (∀ sp', sp' ∈ l1 → is_Some (read_text ex_opf (vol sp' ++ py ".txt")))
  ∧ read_text ex_opf (vol sp ++ py ".txt") = None
  ∧ get_text_base_layer ex_opf (l1 ++ sp :: [mkSpan (py "base/v002") 0 2])
    = Raise (FileNotFoundError (vol sp ++ py ".txt")).
Proof.
  intros l1 sp.
  assert (∀ sp', sp' ∈ l1 →
            is_Some (read_text ex_opf (vol sp' ++ py ".txt"))) as Hfiles.
  { intros sp' Hsp.
    apply elem_of_cons in Hsp as [->|Hsp]; [|by apply elem_of_nil in Hsp].
    vm_compute; eauto. }
  assert (read_text ex_opf (vol sp ++ py ".txt") = None) as Hmissing
    by (by vm_compute).
  split; [done|]. split; [done|].
  apply (get_text_base_layer_missing_file ex_opf l1 _ sp Hfiles Hmissing).
Defined.

(** ** Volume names *)

Lemma split_no_sep sep (k : pystr) : sep ∉ k → split sep k = [k].
Proof.
  induction k as [|c k IH]; [done|].
  intros [Hc Hk]%not_elem_of_cons. simpl.
  rewrite (proj2 (N.eqb_neq c sep)) by congruence. by rewrite IH.
Qed.

Lemma split_last sep (pre k : pystr) :
  sep ∉ k → ∃ w ws, split sep (pre ++ sep :: k) = w :: ws ++ [k].
Proof.
  intros Hk. induction pre as [|c pre (w & ws & IH)]; simpl.
  - rewrite N.eqb_refl, split_no_sep by done. by exists [], [].
  - destruct (c =? sep)%N.
    + exists [], (w :: ws). by rewrite IH.
    + rewrite IH. by exists (c :: w), ws.
Qed.

(** X16.  The key of a volume in [base_layers] is what follows the last
    slash of the span's [vol], or the whole of [vol] when it has no slash;
    the key itself has no slash. *)
Theorem vol_key_after_last_slash (sp : Span) :
  (∀ pre k, vol sp = pre ++ 47%N :: k → 47%N ∉ k → vol_key sp = k)
  ∧ (47%N ∉ vol sp → vol_key sp = vol sp)
  ∧ 47%N ∉ vol_key sp.
Proof.
  assert (∀ pre k, vol sp = pre ++ 47%N :: k → 47%N ∉ k → vol_key sp = k)
    as Hslash.
  { intros pre k Hvol Hk. unfold vol_key, last_item. rewrite Hvol.
    destruct (split_last 47%N pre k Hk) as (w & ws & ->).
    by rewrite app_comm_cons, last_snoc. }
  assert (47%N ∉ vol sp → vol_key sp = vol sp) as Hplain.
  { intros Hk. unfold vol_key, last_item. by rewrite split_no_sep. }
  split; [done|]. split; [done|].
  (* cut [vol sp] at its last slash, if it has one *)
  assert (∀ l : pystr, 47%N ∉ l ∨ ∃ pre k, l = pre ++ 47%N :: k ∧ 47%N ∉ k)
    as Hcut.
  { induction l as [|c l [Hl|(pre & k & -> & Hk)]].
    - left. apply not_elem_of_nil.
    - destruct (decide (c = 47%N)) as [->|Hc].
      + right. by exists [], l.
      + left. by apply not_elem_of_cons.
    - right. by exists (c :: pre), k. }
  destruct (Hcut (vol sp)) as [Hno|(pre & k & Hvol & Hk)].
  - by rewrite Hplain.
  - by rewrite (Hslash pre k).
Qed.

Lemma vol_key_after_last_slash_witness :
  let sp := mkSpan (py "opf/base/v001") 0 2 in
  vol sp = py "opf/base" ++ 47%N :: py "v001"
  ∧ vol_key sp = py "v001".
Proof.
  intros sp. split; [done|].
  apply (proj1 (vol_key_after_last_slash sp) (py "opf/base") (py "v001"));
    [done|].
  vm_compute. intros H.
  repeat (apply elem_of_cons in H as [H|H]; [discriminate H|]).
  by apply elem_of_nil in H.
Defined.

(** ** Constructing the object *)

Lemma get_text_spans_none annotations text_id :
  (∀ a, a ∈ annotations → idx_work a ≠ text_id) →
  get_text_spans annotations text_id = None.
Proof.
  induction annotations as [|a annotations IH]; intros Hno; [done|].
  simpl. rewrite decide_False by (apply Hno; by left).
  apply IH. intros a' ?. apply Hno. by right.
Qed.

Lemma get_text_spans_first l1 a l2 text_id :
  (∀ a', a' ∈ l1 → idx_work a' ≠ text_id) →
  idx_work a = text_id →
  get_text_spans (l1 ++ a :: l2) text_id = Some (idx_span a).
Proof.
  intros Hno Ha. induction l1 as [|a' l1 IH]; simpl.
  - by rewrite decide_True.
  - rewrite decide_False by (apply Hno; by left).
    apply IH. intros a'' ?. apply Hno. by right.
Qed.

(** X17.  Constructing a [Serialize] object for a work that the index does
    not list raises [TypeError], whatever the files and the layers. *)
Theorem init_unknown_work (opf : Opf) (annotations : list IndexAnnotation)
    (text_id : pystr) (layers : option (list pystr)) :
  (∀ a, a ∈ annotations → idx_work a ≠ text_id) →
  init opf (Some annotations) text_id layers = Raise TypeError.
Proof.
  intros Hno. unfold init. by rewrite get_text_spans_none.
Qed.

Lemma init_unknown_work_witness :
  let annotations := [mkIndexAnnotation (py "W1") ex_spans] in
  (∀ a, a ∈ annotations → idx_work a ≠ py "W2")
  ∧ init ex_opf (Some annotations) (py "W2") None = Raise TypeError.
Proof.
  intros annotations.
  assert (∀ a, a ∈ annotations → idx_work a ≠ py "W2") as Hno.
  { intros a Ha.
    apply elem_of_cons in Ha as [->|Ha]; [done|by apply elem_of_nil in Ha]. }
  split; [done|]. apply (init_unknown_work ex_opf annotations _ None Hno).
Defined.

(** X18.  A freshly constructed object for a work of one span, the first
    entry of the index for that work (later entries for the same work are
    ignored), renders without [apply_layers] as the span's text from its
    volume file, U+FEFF left out. *)
Theorem init_then_get_result (opf : Opf) (l1 l2 : list IndexAnnotation)
    (a : IndexAnnotation) (sp : Span) (t text_id : pystr)
    (layers : option (list pystr)) :
  (∀ a', a' ∈ l1 → idx_work a' ≠ text_id) →
  idx_work a = text_id → idx_span a = [sp] →
  read_text opf (vol sp ++ py ".txt") = Some t →
  ∃ obj, init opf (Some (l1 ++ a :: l2)) text_id layers = Return obj
         ∧ text_spans obj = [sp]
         ∧ chars_toapply obj = ∅
         ∧ get_result (base_layers obj) (chars_toapply obj)
           = Some (filter (λ c, c ≠ BOM)
                     (slice t (span_start sp) (span_end sp))).
Proof.
  intros Hno Ha Hspan Ht. unfold init.
  rewrite (get_text_spans_first l1 a l2 text_id Hno Ha), Hspan.
  unfold get_text_base_layer. cbn [for_each].
  rewrite (get_base_layer_read opf sp t Ht).
  cbn [mbind result_mbind result_bind dict_set].
  eexists. split; [done|]. cbn [text_spans chars_toapply base_layers].
  split; [done|]. split; [done|].
  cbn [get_result]. unfold vol_chars. rewrite lookup_empty. cbn [default].
  by rewrite scan_empty.
Qed.

Lemma init_then_get_result_witness :
  let a := mkIndexAnnotation (py "W1") [mkSpan (py "base/v001") 0 2] in
  (∀ a', a' ∈ [] → idx_work a' ≠ py "W1")
  ∧ read_text ex_opf (py "base/v001" ++ py ".txt") = Some (py "ab")
  ∧ ∃ obj, init ex_opf (Some ([] ++ a :: [])) (py "W1") None = Return obj
           ∧ text_spans obj = [mkSpan (py "base/v001") 0 2]
           ∧ chars_toapply obj = ∅
           ∧ get_result (base_layers obj) (chars_toapply obj)
             = Some (filter (λ c, c ≠ BOM) (slice (py "ab") 0 2)).
Proof.
  intros a.
  assert (∀ a', a' ∈ [] → idx_work a' ≠ py "W1") as Hno
    by (intros a' Ha'; by apply elem_of_nil in Ha').
  assert (read_text ex_opf (py "base/v001" ++ py ".txt") = Some (py "ab"))
    as Ht by (by vm_compute).
  split; [done|]. split; [done|].
  apply (init_then_get_result ex_opf [] [] a (mkSpan (py "base/v001") 0 2)
           (py "ab") (py "W1") None Hno eq_refl eq_refl Ht).
Defined.

End SerializeExtras.
